(** * GI-Translation: the lookup core of [main.py]

    A shallow embedding of the dictionary loading, the per-country cache and
    the translation routine of [TranslatorApp], followed by the properties
    the specification states about them.

    Conventions of the embedding.
    - A Python [str] is a Rocq [string] holding its UTF-8 bytes.  The two
      characters the alias pattern looks at, the braces, are ASCII, so
      scanning bytes and scanning code points find the same matches.
    - A JSON file that parses holds an object of objects of strings, the
      shape section 6 of the specification gives to both kinds of file.  The
      outer object is kept as its list of items, in insertion order (the
      order [dict.items()] iterates in); an inner object is a finite map.
    - [self] is a record; an attribute that has not been assigned yet is
      [None], and reading it raises [AttributeError].
    - Exceptions are values: a computation returns an outcome together with
      the state reached, so what was mutated before a [raise] stays mutated.
    - The file system is an argument of every routine that touches files,
      and the accesses made are appended to the [io] trace of the state. *)

From Stdlib Require Import Ascii.
From stdpp Require Import gmap strings list fin_maps.

Open Scope string_scope.

(** ** Data read from the JSON files *)

(** An inner JSON object: field name to string value. *)
Abbreviation JObject := (gmap string string).

(** A parsed JSON file: the items of the outer [dict], in insertion order. *)
Abbreviation JDict := (list (string * gmap string string)).

(** [d.get(k)] on the items of a [dict]. *)
Fixpoint dict_get (d : JDict) (k : string) : option JObject :=
  match d with
  | [] => None
  | (k', v) :: d' => if decide (k' = k) then Some v else dict_get d' k
  end.

(** What a path holds: nothing, something [open]/[json.load] raises on (with
    the text [str(e)] of the exception), or a JSON document. *)
Inductive File :=
| Absent
| Unreadable (msg : string)
| Content (d : JDict).

Definition FileSystem := string -> File.

(** The value stored in the alias index under every name and alias. *)
Record NameRecord := { Country : string; HID : string }.

#[global] Instance NameRecord_eq_dec : EqDecision NameRecord.
Proof. solve_decision. Defined.

(** ** Exceptions, I/O trace and the application object *)

Inductive exn :=
| FileNotFoundError (path : string)
| LoadError (msg : string)
| KeyError (key : string)
| AttributeError (attr : string).

(** [str(e)] *)
Definition str (e : exn) : string :=
  match e with
  | FileNotFoundError path =>
      "[Errno 2] No such file or directory: '" +:+ path +:+ "'"
  | LoadError msg => msg
  | KeyError key => "'" +:+ key +:+ "'"
  | AttributeError attr =>
      "'TranslatorApp' object has no attribute '" +:+ attr +:+ "'"
  end.

(** What the program does to the outside world: [os.path.exists(path)],
    [open(path)], [print(line)], and [QIcon(path)] handed to
    [setWindowIcon]. *)
Inductive IOEvent :=
| IOExists (path : string)
| IOOpen (path : string)
| IOPrint (line : string)
| IOIcon (path : string).

Record TranslatorApp := {
  name_to_info : option (gmap string NameRecord);
  sk_name_to_info : option (gmap string NameRecord);
  country_data_cache : gmap string JDict;
  sk_country_data_cache : gmap string JDict;
  output_edit_1 : string;
  output_edit_2 : string;
  io : list IOEvent
}.

(** The two language tracks: Chinese to English ([One]) and Chinese to
    Korean ([SK]).  The source writes every routine twice, once per track,
    with the attribute names and messages below swapped. *)
Inductive Track := One | SK.

#[global] Instance Track_eq_dec : EqDecision Track.
Proof. solve_decision. Defined.

Definition index_of (tr : Track) (self : TranslatorApp) :=
  match tr with One => name_to_info self | SK => sk_name_to_info self end.

Definition cache_of (tr : Track) (self : TranslatorApp) :=
  match tr with
  | One => country_data_cache self
  | SK => sk_country_data_cache self
  end.

Definition output_of (tr : Track) (self : TranslatorApp) :=
  match tr with One => output_edit_1 self | SK => output_edit_2 self end.

Definition with_index (tr : Track) (v : option (gmap string NameRecord))
    (self : TranslatorApp) : TranslatorApp :=
  match tr with
  | One =>
      {| name_to_info := v; sk_name_to_info := sk_name_to_info self;
         country_data_cache := country_data_cache self;
         sk_country_data_cache := sk_country_data_cache self;
         output_edit_1 := output_edit_1 self;
         output_edit_2 := output_edit_2 self; io := io self |}
  | SK =>
      {| name_to_info := name_to_info self; sk_name_to_info := v;
         country_data_cache := country_data_cache self;
         sk_country_data_cache := sk_country_data_cache self;
         output_edit_1 := output_edit_1 self;
         output_edit_2 := output_edit_2 self; io := io self |}
  end.

Definition with_cache (tr : Track) (v : gmap string JDict)
    (self : TranslatorApp) : TranslatorApp :=
  match tr with
  | One =>
      {| name_to_info := name_to_info self;
         sk_name_to_info := sk_name_to_info self;
         country_data_cache := v;
         sk_country_data_cache := sk_country_data_cache self;
         output_edit_1 := output_edit_1 self;
         output_edit_2 := output_edit_2 self; io := io self |}
  | SK =>
      {| name_to_info := name_to_info self;
         sk_name_to_info := sk_name_to_info self;
         country_data_cache := country_data_cache self;
         sk_country_data_cache := v;
         output_edit_1 := output_edit_1 self;
         output_edit_2 := output_edit_2 self; io := io self |}
  end.

Definition with_output (tr : Track) (v : string)
    (self : TranslatorApp) : TranslatorApp :=
  match tr with
  | One =>
      {| name_to_info := name_to_info self;
         sk_name_to_info := sk_name_to_info self;
         country_data_cache := country_data_cache self;
         sk_country_data_cache := sk_country_data_cache self;
         output_edit_1 := v;
         output_edit_2 := output_edit_2 self; io := io self |}
  | SK =>
      {| name_to_info := name_to_info self;
         sk_name_to_info := sk_name_to_info self;
         country_data_cache := country_data_cache self;
         sk_country_data_cache := sk_country_data_cache self;
         output_edit_1 := output_edit_1 self;
         output_edit_2 := v; io := io self |}
  end.

Definition with_io (v : list IOEvent) (self : TranslatorApp) : TranslatorApp :=
  {| name_to_info := name_to_info self;
     sk_name_to_info := sk_name_to_info self;
     country_data_cache := country_data_cache self;
     sk_country_data_cache := sk_country_data_cache self;
     output_edit_1 := output_edit_1 self;
     output_edit_2 := output_edit_2 self; io := v |}.

(** Per-track constants of the source. *)
Definition index_attr (tr : Track) : string :=
  match tr with One => "name_to_info" | SK => "sk_name_to_info" end.

Definition main_path (tr : Track) : string :=
  match tr with
  | One => "Database/CsOne_main.json"
  | SK => "Database/CsSK_main.json"
  end.

Definition load_error_text (tr : Track) (e : exn) : string :=
  match tr with
  | One => "加载One主数据时异常：" +:+ str e
  | SK => "加载SK主数据时异常：" +:+ str e
  end.

Definition ESC : string := String (Ascii.ascii_of_nat 27) "".

Definition country_error_line (tr : Track) (country : string) (e : exn)
    : string :=
  match tr with
  | One => "加载[" +:+ country +:+ "]数据时异常：" +:+ str e
  | SK =>
      "加载 " +:+ ESC +:+ "[94mCs" +:+ country +:+ ".json" +:+ ESC
      +:+ "[0m 数据时异常：" +:+ ESC +:+ "[91m" +:+ str e +:+ ESC +:+ "[0m"
  end.

Definition country_path (country : string) : string :=
  "Database/Cs" +:+ country +:+ ".json".

Definition icon_path : string := "Database/hk4e_cn.ico".

Definition no_result : string := "无此翻译结果".
Definition no_data : string := "未找到翻译数据信息".
Definition unknown : string := "Unknown".

(** ** The monad of methods of [TranslatorApp] *)

Inductive outcome (A : Type) :=
| Return (a : A)
| Raise (e : exn).
Arguments Return {A} a.
Arguments Raise {A} e.

Definition M (A : Type) : Type := TranslatorApp -> outcome A * TranslatorApp.

Definition ret {A} (a : A) : M A := fun self => (Return a, self).

Definition raise {A} (e : exn) : M A := fun self => (Raise e, self).

Definition bind {A B} (m : M A) (k : A -> M B) : M B :=
  fun self =>
    match m self with
    | (Return a, self') => k a self'
    | (Raise e, self') => (Raise e, self')
    end.

(** [try: body except Exception as e: handler(e)] *)
Definition try_except {A} (body : M A) (handler : exn -> M A) : M A :=
  fun self =>
    match body self with
    | (Return a, self') => (Return a, self')
    | (Raise e, self') => handler e self'
    end.

Declare Scope py_scope.
Delimit Scope py_scope with py.
Notation "x <- m ;; k" := (bind m (fun x => k))
  (at level 100, m at next level, right associativity) : py_scope.
Notation "m ;; k" := (bind m (fun _ => k))
  (at level 100, right associativity) : py_scope.
Open Scope py_scope.

(** [for x in l: body(x)] *)
Fixpoint for_each {A} (l : list A) (body : A -> M unit) : M unit :=
  match l with
  | [] => ret tt
  | x :: l' => body x ;; for_each l' body
  end.

(** Attribute access and item assignment on [self]. *)
Definition get_index (tr : Track) : M (gmap string NameRecord) :=
  fun self =>
    match index_of tr self with
    | Some idx => (Return idx, self)
    | None => (Raise (AttributeError (index_attr tr)), self)
    end.

Definition set_index (tr : Track) (idx : gmap string NameRecord) : M unit :=
  fun self => (Return tt, with_index tr (Some idx) self).

(** [self.name_to_info[key] = value] *)
Definition index_setitem (tr : Track) (key : string) (value : NameRecord)
    : M unit :=
  idx <- get_index tr ;; set_index tr (<[key := value]> idx).

Definition get_cache (tr : Track) : M (gmap string JDict) :=
  fun self => (Return (cache_of tr self), self).

(** [self.country_data_cache[country] = data] *)
Definition cache_setitem (tr : Track) (country : string) (data : JDict)
    : M unit :=
  fun self =>
    (Return tt, with_cache tr (<[country := data]> (cache_of tr self)) self).

(** [self.output_edit_N.setText(text)] *)
Definition setText (tr : Track) (text : string) : M unit :=
  fun self => (Return tt, with_output tr text self).

Definition emit (ev : IOEvent) : M unit :=
  fun self => (Return tt, with_io (io self ++ [ev]) self).

(** [os.path.exists(path)] *)
Definition path_exists (fs : FileSystem) (path : string) : M bool :=
  emit (IOExists path) ;;
  ret (match fs path with Absent => false | _ => true end).

(** [with open(path, 'r', encoding='utf-8') as f: json.load(f)] *)
Definition open_json_load (fs : FileSystem) (path : string) : M JDict :=
  emit (IOOpen path) ;;
  match fs path with
  | Absent => raise (FileNotFoundError path)
  | Unreadable msg => raise (LoadError msg)
  | Content d => ret d
  end.

(** [info[key]] on an inner object. *)
Definition subscript (info : JObject) (key : string) : M string :=
  match info !! key with
  | Some v => ret v
  | None => raise (KeyError key)
  end.

(** ** [re.findall('\\{([^}]+)}', exegesis)]

    The pattern is an opening brace, a greedy non-empty run of characters
    other than the closing brace, and a closing brace; [findall] returns the
    run of each match, scanning left to right without overlap.  [scan]
    carries [Some run] while a candidate match is open and [None] otherwise.
    A candidate whose run is empty fails, and the search resumes at the
    closing brace just read, which opens nothing.  A candidate still open at
    the end of the text fails too, and so would any later start inside it. *)
Definition open_brace : ascii := "{"%char.
Definition close_brace : ascii := "}"%char.

Fixpoint scan (run : option string) (s : string) : list string :=
  match s with
  | EmptyString => []
  | String c s' =>
      match run with
      | None =>
          if Ascii.eqb c open_brace then scan (Some "") s' else scan None s'
      | Some r =>
          if Ascii.eqb c close_brace then
            match r with
            | EmptyString => scan None s'
            | _ => r :: scan None s'
            end
          else scan (Some (r +:+ String c "")) s'
      end
  end.

Definition findall (exegesis : string) : list string := scan None exegesis.

(** ** The methods of [TranslatorApp] *)

(** The record built by the dict display
    [{'Country': info['Country'], 'HID': info['HID']}]. *)
Definition make_record (info : JObject) : M NameRecord :=
  c <- subscript info "Country" ;;
  h <- subscript info "HID" ;;
  ret {| Country := c; HID := h |}.

(** The body of the loop over [main_data.items()]. *)
Definition load_entry (tr : Track) (item : string * JObject) : M unit :=
  let '(name, info) := item in
  r <- make_record info ;;
  index_setitem tr name r ;;
  let exegesis := default "" (info !! "exegesis") in
  let aliases := findall exegesis in
  for_each aliases (fun alias =>
    r <- make_record info ;;
    index_setitem tr alias r).

(** [load_main_data] and [load_sk_main_data].  [initUI] has run before
    them, so the [hasattr] test of the handler holds and the error text is
    always shown. *)
Definition load_track (fs : FileSystem) (tr : Track) : M unit :=
  try_except
    (main_data <- open_json_load fs (main_path tr) ;;
     set_index tr ∅ ;;
     for_each main_data (load_entry tr))
    (fun e => setText tr (load_error_text tr e)).

Definition load_main_data (fs : FileSystem) : M unit := load_track fs One.
Definition load_sk_main_data (fs : FileSystem) : M unit := load_track fs SK.

Definition get_track_country_data (fs : FileSystem) (tr : Track)
    (country : string) : M (option JDict) :=
  cache <- get_cache tr ;;
  match cache !! country with
  | Some data => ret (Some data)
  | None =>
      let file_path := country_path country in
      try_except
        (present <- path_exists fs file_path ;;
         if (present : bool) then
           data <- open_json_load fs file_path ;;
           cache_setitem tr country data ;;
           ret (Some data)
         else ret None)
        (fun e =>
           emit (IOPrint (country_error_line tr country e)) ;;
           ret None)
  end.

Definition get_country_data (fs : FileSystem) (country : string)
    : M (option JDict) := get_track_country_data fs One country.
Definition get_sk_country_data (fs : FileSystem) (country : string)
    : M (option JDict) := get_track_country_data fs SK country.

(** Truth value of what [get_country_data] returns: [None] and the empty
    [dict] are false. *)
Definition truthy (country_data : option JDict) : bool :=
  match country_data with
  | Some (_ :: _) => true
  | _ => false
  end.

(** One of the two blocks of [translate]. *)
Definition translate_track (fs : FileSystem) (tr : Track) (text : string)
    : M unit :=
  idx <- get_index tr ;;
  match idx !! text with
  | Some info =>
      let country := Country info in
      let hid := HID info in
      country_data <- get_track_country_data fs tr country ;;
      if truthy country_data then
        let entry := default ∅ (dict_get (default [] country_data) hid) in
        let translated_name := default unknown (entry !! "name") in
        setText tr translated_name
      else setText tr no_data
  | None => setText tr no_result
  end.

Definition translate (fs : FileSystem) (text : string) : M unit :=
  if decide (text = "") then
    setText One "" ;; setText SK ""
  else
    translate_track fs One text ;; translate_track fs SK text.

(** The object as [initUI] leaves it: both result fields empty, no index
    attribute yet.  The two caches are assigned after the loads in the
    source; nothing reads them in between, so they start empty here. *)
Definition blank : TranslatorApp :=
  {| name_to_info := None; sk_name_to_info := None;
     country_data_cache := ∅; sk_country_data_cache := ∅;
     output_edit_1 := ""; output_edit_2 := ""; io := [] |}.

(** [self.setWindowIcon(QIcon(path))]: Qt reads the image at [path]; a file
    it cannot decode gives a null icon and no exception. *)
Definition setWindowIcon (path : string) : M unit := emit (IOIcon path).

(** [TranslatorApp.__init__]: the two loads, then the probe for the window
    icon.  The timer, [last_input], the two caches (see [blank]), the fixed
    size and the animations are set up in between and after; none of them
    touches a file or a result field. *)
Definition __init__ (fs : FileSystem) : TranslatorApp :=
  snd ((load_main_data fs ;;
        load_sk_main_data fs ;;
        present <- path_exists fs icon_path ;;
        if (present : bool) then setWindowIcon icon_path else ret tt) blank).

(** ** Running programs

    [reachable fs self]: [self] is a state the application can be in when it
    was started on the files of [fs] and these files have not changed since:
    the state after [__init__], or the state after one more [translate]. *)
Inductive reachable (fs : FileSystem) : TranslatorApp -> Prop :=
| reach_init : reachable fs (__init__ fs)
| reach_translate self text :
    reachable fs self -> reachable fs (snd (translate fs text self)).


(** Both alias indexes exist: each load got as far as creating its
    attribute. *)
Definition loaded (self : TranslatorApp) : Prop :=
  forall tr, is_Some (index_of tr self).

(** A dictionary entry of the shape section 6 requires: it has a [Country]
    and a [HID]. *)
Definition well_formed (item : string * JObject) : Prop :=
  is_Some (item.2 !! "Country") /\ is_Some (item.2 !! "HID").

(** The keys an entry contributes to the index: its name, then the aliases
    found in its [exegesis]. *)
Definition entry_keys (item : string * JObject) : list string :=
  item.1 :: findall (default "" (item.2 !! "exegesis")).

(** ** Pure views of the stateful routines, used by the proofs *)

Definition entry_record (info : JObject) : outcome NameRecord :=
  match info !! "Country" with
  | None => Raise (KeyError "Country")
  | Some c =>
      match info !! "HID" with
      | None => Raise (KeyError "HID")
      | Some h => Return {| Country := c; HID := h |}
      end
  end.

Definition add_keys (r : NameRecord) (keys : list string)
    (idx : gmap string NameRecord) : gmap string NameRecord :=
  foldl (fun m k => <[k := r]> m) idx keys.
Arguments add_keys : simpl never.
Arguments entry_keys : simpl never.

Fixpoint build (items : JDict) (idx : gmap string NameRecord)
    : outcome unit * gmap string NameRecord :=
  match items with
  | [] => (Return tt, idx)
  | item :: rest =>
      match entry_record item.2 with
      | Return r => build rest (add_keys r (entry_keys item) idx)
      | Raise e => (Raise e, idx)
      end
  end.

(** What the cache getter hands back, as a function of cache and files. *)
Definition fetch (fs : FileSystem) (cache : gmap string JDict)
    (country : string) : option JDict :=
  match cache !! country with
  | Some data => Some data
  | None =>
      match fs (country_path country) with
      | Content data => Some data
      | _ => None
      end
  end.

(** The text one block of [translate] puts in its result field. *)
Definition result_text (fs : FileSystem) (idx : gmap string NameRecord)
    (cache : gmap string JDict) (text : string) : string :=
  match idx !! text with
  | None => no_result
  | Some info =>
      match fetch fs cache (Country info) with
      | Some (e :: d) =>
          default unknown (default ∅ (dict_get (e :: d) (HID info)) !! "name")
      | _ => no_data
      end
  end.

(** The cache a block of [translate] leaves behind. *)
Definition result_cache (fs : FileSystem) (idx : gmap string NameRecord)
    (cache : gmap string JDict) (text : string) : gmap string JDict :=
  match idx !! text with
  | None => cache
  | Some info =>
      match cache !! Country info with
      | Some _ => cache
      | None =>
          match fs (country_path (Country info)) with
          | Content data => <[Country info := data]> cache
          | _ => cache
          end
      end
  end.

(** The state a load leaves, in full. *)
Definition loaded_state (fs : FileSystem) (tr : Track) (self : TranslatorApp)
    : TranslatorApp :=
  let opened := with_io (io self ++ [IOOpen (main_path tr)]) self in
  match fs (main_path tr) with
  | Absent =>
      with_output tr
        (load_error_text tr (FileNotFoundError (main_path tr))) opened
  | Unreadable msg =>
      with_output tr (load_error_text tr (LoadError msg)) opened
  | Content items =>
      let built := with_index tr (Some (snd (build items ∅))) opened in
      match fst (build items ∅) with
      | Return _ => built
      | Raise e => with_output tr (load_error_text tr e) built
      end
  end.

(** The accesses [__init__] makes after the two loads. *)
Definition icon_events (fs : FileSystem) : list IOEvent :=
  IOExists icon_path
  :: match fs icon_path with
     | Absent => []
     | _ => [IOIcon icon_path]
     end.

(** Every cached table is the content of its file. *)
Definition consistent (fs : FileSystem) (self : TranslatorApp) : Prop :=
  forall tr country data,
    cache_of tr self !! country = Some data ->
    fs (country_path country) = Content data.

(** [occurs c s]: the character [c] occurs in [s]. *)
Fixpoint occurs (c : ascii) (s : string) : bool :=
  match s with
  | EmptyString => false
  | String c' s' => Ascii.eqb c' c || occurs c s'
  end.

(** A file the getter cannot load: it is not there, or [open]/[json.load]
    raises on it. *)
Definition unavailable (f : File) : Prop :=
  f = Absent \/ exists msg, f = Unreadable msg.

(** ** Sample files *)

Definition obj (fields : list (string * string)) : JObject :=
  list_to_map fields.

Definition demo_dictionary : JDict :=
  [("钟离", obj [("Country", "Liyue"); ("HID", "h1");
                 ("exegesis", "岩王帝君{帝君}、{摩拉克斯}")]);
   ("胡桃", obj [("Country", "Liyue"); ("HID", "h2")]);
   ("温迪", obj [("Country", "Mondstadt"); ("HID", "h3");
                 ("exegesis", "{巴巴托斯}")]);
   ("那维莱特", obj [("Country", "Fontaine"); ("HID", "h4")])].

Definition liyue_table : JDict := [("h1", obj [("name", "Zhongli")])].

(** Both dictionaries present; a table for Liyue that lacks [h2]; an empty
    table for Fontaine; no table for Mondstadt. *)
Definition demo_fs : FileSystem := fun path =>
  if decide (path = "Database/CsOne_main.json") then Content demo_dictionary
  else if decide (path = "Database/CsSK_main.json") then
    Content demo_dictionary
  else if decide (path = "Database/CsLiyue.json") then Content liyue_table
  else if decide (path = "Database/CsFontaine.json") then Content []
  else Absent.

(** As [demo_fs], without the English dictionary. *)
Definition missing_one_fs : FileSystem := fun path =>
  if decide (path = "Database/CsOne_main.json") then Absent
  else demo_fs path.

(** As [demo_fs], without the Korean dictionary. *)
Definition missing_sk_fs : FileSystem := fun path =>
  if decide (path = "Database/CsSK_main.json") then Absent
  else demo_fs path.

(** As [demo_fs], with an English dictionary whose entry writes the alias
    帝君 behind a doubled opening brace. *)
Definition nested_brace_fs : FileSystem := fun path =>
  if decide (path = "Database/CsOne_main.json") then
    Content [("钟离", obj [("Country", "Liyue"); ("HID", "h1");
                           ("exegesis", "岩王帝君{{帝君}")])]
  else demo_fs path.

(** As [demo_fs], with an English dictionary whose entry has the empty
    string as its name. *)
Definition empty_name_fs : FileSystem := fun path =>
  if decide (path = "Database/CsOne_main.json") then
    Content [("", obj [("Country", "Liyue"); ("HID", "h1");
                       ("exegesis", "{帝君}")])]
  else demo_fs path.

(** As [demo_fs], with a table file for Mondstadt that holds no JSON. *)
Definition garbled_table_fs : FileSystem := fun path =>
  if decide (path = "Database/CsMondstadt.json") then
    Unreadable "Expecting value: line 1 column 1 (char 0)"
  else demo_fs path.

(** As [demo_fs], with an English dictionary whose second entry has no
    [Country]. *)
Definition broken_entry_fs : FileSystem := fun path =>
  if decide (path = "Database/CsOne_main.json") then
    Content [("钟离", obj [("Country", "Liyue"); ("HID", "h1")]);
             ("胡桃", obj [("HID", "h2")]);
             ("温迪", obj [("Country", "Mondstadt"); ("HID", "h3")])]
  else demo_fs path.

(** Two entries that both claim the alias 老师. *)
Definition collision_dictionary : JDict :=
  [("钟离", obj [("Country", "Liyue"); ("HID", "h1");
                 ("exegesis", "{老师}")]);
   ("温迪", obj [("Country", "Mondstadt"); ("HID", "h3");
                 ("exegesis", "{老师}")])].

Definition collision_fs : FileSystem := fun path =>
  if decide (path = "Database/CsOne_main.json") then
    Content collision_dictionary
  else demo_fs path.

(** ** The rest of the window: input polling and the copy buttons

    [TranslatorApp] also holds the input field, the text seen at the last
    poll, the two copy buttons and the pending single-shot timers; the
    clipboard belongs to the system.  [Window] adds them to the part of the
    object modelled above. *)

(** [a] stands between braces somewhere in [s]. *)
Definition bracketed (a s : string) : Prop :=
  exists pre post,
    s = pre +:+ String open_brace (a +:+ String close_brace post).

Definition copy_label : string := "📋复制📋".
Definition done_label : string := "✅".

Record Window := {
  core : TranslatorApp;
  input_line : string;
  last_input : string;
  copy_button_1 : string;
  copy_button_2 : string;
  clipboard : string;
  single_shots : list Track
}.

Definition button_of (tr : Track) (w : Window) : string :=
  match tr with One => copy_button_1 w | SK => copy_button_2 w end.

Definition with_core (v : TranslatorApp) (w : Window) : Window :=
  {| core := v; input_line := input_line w; last_input := last_input w;
     copy_button_1 := copy_button_1 w; copy_button_2 := copy_button_2 w;
     clipboard := clipboard w; single_shots := single_shots w |}.

Definition with_input (v : string) (w : Window) : Window :=
  {| core := core w; input_line := v; last_input := last_input w;
     copy_button_1 := copy_button_1 w; copy_button_2 := copy_button_2 w;
     clipboard := clipboard w; single_shots := single_shots w |}.

Definition with_last_input (v : string) (w : Window) : Window :=
  {| core := core w; input_line := input_line w; last_input := v;
     copy_button_1 := copy_button_1 w; copy_button_2 := copy_button_2 w;
     clipboard := clipboard w; single_shots := single_shots w |}.

Definition with_button (tr : Track) (v : string) (w : Window) : Window :=
  match tr with
  | One =>
      {| core := core w; input_line := input_line w;
         last_input := last_input w;
         copy_button_1 := v; copy_button_2 := copy_button_2 w;
         clipboard := clipboard w; single_shots := single_shots w |}
  | SK =>
      {| core := core w; input_line := input_line w;
         last_input := last_input w;
         copy_button_1 := copy_button_1 w; copy_button_2 := v;
         clipboard := clipboard w; single_shots := single_shots w |}
  end.

Definition with_clipboard (v : string) (w : Window) : Window :=
  {| core := core w; input_line := input_line w; last_input := last_input w;
     copy_button_1 := copy_button_1 w; copy_button_2 := copy_button_2 w;
     clipboard := v; single_shots := single_shots w |}.

Definition with_single_shots (v : list Track) (w : Window) : Window :=
  {| core := core w; input_line := input_line w; last_input := last_input w;
     copy_button_1 := copy_button_1 w; copy_button_2 := copy_button_2 w;
     clipboard := clipboard w; single_shots := v |}.

(** The window once [__init__] has returned: empty input, [last_input]
    empty, both buttons labelled, whatever the clipboard held. *)
Definition show_window (fs : FileSystem) (clip : string) : Window :=
  {| core := __init__ fs; input_line := ""; last_input := "";
     copy_button_1 := copy_label; copy_button_2 := copy_label;
     clipboard := clip; single_shots := [] |}.

(** [check_input], the slot of the 100 ms timer. *)
Definition check_input (fs : FileSystem) (w : Window)
    : outcome unit * Window :=
  let current_text := input_line w in
  if decide (current_text <> last_input w) then
    let w1 := with_last_input current_text w in
    let '(o, self) := translate fs current_text (core w1) in
    (o, with_core self w1)
  else (Return tt, w).

(** [copy_to_clipboard(button_id)].  The single shot started at the end is
    kept in [single_shots] with the button its lambda captured. *)
Definition copy_to_clipboard (button_id : Z) (w : Window) : Window :=
  let tr := if decide (button_id = 1%Z) then One else SK in
  let text := output_of tr (core w) in
  if decide (text = "") then w
  else
    with_single_shots (single_shots w ++ [tr])
      (with_button tr done_label (with_clipboard text w)).

(** The oldest pending single shot fires: its lambda relabels the button. *)
Definition single_shot_timeout (w : Window) : Window :=
  match single_shots w with
  | [] => w
  | tr :: rest => with_button tr copy_label (with_single_shots rest w)
  end.

(** What can happen to the window, and a sequence of such events. *)
Inductive Event :=
| Typed (text : string)
| Tick (fs : FileSystem)
| Clicked (button_id : Z)
| TimedOut.

Definition handle (w : Window) (ev : Event) : Window :=
  match ev with
  | Typed text => with_input text w
  | Tick fs => snd (check_input fs w)
  | Clicked button_id => copy_to_clipboard button_id w
  | TimedOut => single_shot_timeout w
  end.

Definition run_events (evs : list Event) (w : Window) : Window :=
  foldl handle w evs.

(** Each button shows its label or the check mark, and the check mark only
    while a single shot for it is pending. *)
Definition labels_ok (w : Window) : Prop :=
  forall tr,
    (button_of tr w = copy_label \/ button_of tr w = done_label)
    /\ (button_of tr w = done_label -> tr ∈ single_shots w).

(** ** [SingleInstanceChecker] and [closeEvent]

    The three Windows calls are taken as given: an [OS] says what each call
    answers (a value, or an exception with its text) and how the system
    state moves.  Every call made is appended to [os_calls]. *)
Inductive answer (A : Type) :=
| Value (a : A)
| Throws (msg : string).
Arguments Value {A} a.
Arguments Throws {A} msg.

Record OS (S : Type) := {
  platform_system : string;
  CreateMutexW : string -> S -> answer (option positive) * S;
  GetLastError : S -> answer N * S;
  CloseHandle : positive -> S -> answer bool * S
}.
Arguments platform_system {S} o.
Arguments CreateMutexW {S} o name st.
Arguments GetLastError {S} o st.
Arguments CloseHandle {S} o h st.

Definition ERROR_ALREADY_EXISTS : N := 183%N.

Inductive OSCall :=
| CallCreateMutexW (name : string)
| CallGetLastError
| CallCloseHandle (h : positive).

(** The checker object together with the system it talks to.  A handle is
    [None] for [NULL] and a non-zero number otherwise, so [if
    self.mutex_handle] is the test for [Some]. *)
Record SingleInstanceChecker (S : Type) := {
  mutex_name : string;
  mutex_handle : option positive;
  os_state : S;
  os_calls : list OSCall;
  stdout : list string
}.
Arguments mutex_name {S} s.
Arguments mutex_handle {S} s.
Arguments os_state {S} s.
Arguments os_calls {S} s.
Arguments stdout {S} s.

(** The state after one system call [c] that left the system in [st]. *)
Definition called {S} (c : OSCall) (st : S) (handle : option positive)
    (self : SingleInstanceChecker S) : SingleInstanceChecker S :=
  {| mutex_name := mutex_name self; mutex_handle := handle;
     os_state := st; os_calls := os_calls self ++ [c];
     stdout := stdout self |}.

Definition print {S} (line : string) (self : SingleInstanceChecker S)
    : SingleInstanceChecker S :=
  {| mutex_name := mutex_name self; mutex_handle := mutex_handle self;
     os_state := os_state self; os_calls := os_calls self;
     stdout := stdout self ++ [line] |}.

(** [SingleInstanceChecker.__init__] *)
Definition new_checker {S} (name : string) (st : S)
    : SingleInstanceChecker S :=
  {| mutex_name := name; mutex_handle := None; os_state := st;
     os_calls := []; stdout := [] |}.

(** [SingleInstanceChecker.is_already_running] *)
Definition is_already_running {S} (os : OS S)
    (self : SingleInstanceChecker S) : bool * SingleInstanceChecker S :=
  if decide (platform_system os <> "Windows") then (false, self)
  else
    match CreateMutexW os (mutex_name self) (os_state self) with
    | (Throws msg, st) =>
        (false,
         print ("互斥锁检查异常: " +:+ msg)
           (called (CallCreateMutexW (mutex_name self)) st
              (mutex_handle self) self))
    | (Value handle, st) =>
        let self1 :=
          called (CallCreateMutexW (mutex_name self)) st handle self in
        match handle with
        | None => (false, self1)
        | Some h =>
            match GetLastError os st with
            | (Throws msg, st2) =>
                (false,
                 print ("互斥锁检查异常: " +:+ msg)
                   (called CallGetLastError st2 (Some h) self1))
            | (Value last_error, st2) =>
                let self2 := called CallGetLastError st2 (Some h) self1 in
                if decide (last_error = ERROR_ALREADY_EXISTS) then
                  match CloseHandle os h st2 with
                  | (Throws msg, st3) =>
                      (false,
                       print ("互斥锁检查异常: " +:+ msg)
                         (called (CallCloseHandle h) st3 (Some h) self2))
                  | (Value _, st3) =>
                      (true, called (CallCloseHandle h) st3 None self2)
                  end
                else (false, self2)
            end
        end
    end.

(** [SingleInstanceChecker.release] *)
Definition release {S} (os : OS S) (self : SingleInstanceChecker S)
    : SingleInstanceChecker S :=
  match mutex_handle self with
  | Some h =>
      if decide (platform_system os = "Windows") then
        match CloseHandle os h (os_state self) with
        | (Value _, st) => called (CallCloseHandle h) st None self
        | (Throws msg, st) =>
            print ("释放互斥锁异常: " +:+ msg)
              (called (CallCloseHandle h) st (Some h) self)
        end
      else self
  | None => self
  end.

(** What [closeEvent] reads and writes: the flag, the fade-out animation
    (how often it was started) and the checker [main] attaches to the
    window, [None] while the attribute is not there. *)
Record Closing (S : Type) := {
  is_closing : bool;
  fade_out_starts : nat;
  instance_checker : option (SingleInstanceChecker S)
}.
Arguments is_closing {S} c.
Arguments fade_out_starts {S} c.
Arguments instance_checker {S} c.

Inductive CloseDecision := Accepted | Ignored.

(** [TranslatorApp.closeEvent] *)
Definition closeEvent {S} (os : OS S) (self : Closing S)
    : CloseDecision * Closing S :=
  if negb (is_closing self) then
    (Ignored,
     {| is_closing := true; fade_out_starts := fade_out_starts self + 1;
        instance_checker := instance_checker self |})
  else
    (Accepted,
     {| is_closing := is_closing self;
        fade_out_starts := fade_out_starts self;
        instance_checker := release os <$> instance_checker self |}).

(** [n] close events in a row, with the decisions taken. *)
Fixpoint close_events {S} (os : OS S) (n : nat) (self : Closing S)
    : list CloseDecision * Closing S :=
  match n with
  | O => ([], self)
  | S n' =>
      let '(d, self1) := closeEvent os self in
      let '(ds, self2) := close_events os n' self1 in
      (d :: ds, self2)
  end.

(** A small system for the examples: the state is the list of mutex names
    that exist together with the last error; creating an existing name
    answers with its handle and [ERROR_ALREADY_EXISTS]. *)
Definition sample_os (system : string) : OS (list string * N) :=
  {| platform_system := system;
     CreateMutexW := fun name st =>
       if decide (name ∈ st.1) then (Value (Some 7%positive), (st.1, 183%N))
       else (Value (Some 7%positive), (name :: st.1, 0%N));
     GetLastError := fun st => (Value st.2, st);
     CloseHandle := fun h st => (Value true, st) |}.

(** The key whose absence stops the loop at an entry: [Country] is read
    first. *)
Definition missing_key (info : JObject) : string :=
  match info !! "Country" with None => "Country" | Some _ => "HID" end.

(** * Properties *)

(** ** Frame lemmas *)

Section Frames.
Variables (tr tr' : Track) (self : TranslatorApp).

Lemma index_with_output v :
  index_of tr (with_output tr' v self) = index_of tr self.
Proof. destruct tr, tr'; reflexivity. Qed.

Lemma index_with_cache v :
  index_of tr (with_cache tr' v self) = index_of tr self.
Proof. destruct tr, tr'; reflexivity. Qed.

Lemma index_with_io v : index_of tr (with_io v self) = index_of tr self.
Proof. destruct tr; reflexivity. Qed.

Lemma index_with_index v :
  index_of tr (with_index tr' v self)
  = if decide (tr = tr') then v else index_of tr self.
Proof. destruct tr, tr'; reflexivity. Qed.

Lemma cache_with_output v :
  cache_of tr (with_output tr' v self) = cache_of tr self.
Proof. destruct tr, tr'; reflexivity. Qed.

Lemma cache_with_index v :
  cache_of tr (with_index tr' v self) = cache_of tr self.
Proof. destruct tr, tr'; reflexivity. Qed.

Lemma cache_with_io v : cache_of tr (with_io v self) = cache_of tr self.
Proof. destruct tr; reflexivity. Qed.

Lemma cache_with_cache v :
  cache_of tr (with_cache tr' v self)
  = if decide (tr = tr') then v else cache_of tr self.
Proof. destruct tr, tr'; reflexivity. Qed.

Lemma output_with_index v :
  output_of tr (with_index tr' v self) = output_of tr self.
Proof. destruct tr, tr'; reflexivity. Qed.

Lemma output_with_cache v :
  output_of tr (with_cache tr' v self) = output_of tr self.
Proof. destruct tr, tr'; reflexivity. Qed.

Lemma output_with_io v : output_of tr (with_io v self) = output_of tr self.
Proof. destruct tr; reflexivity. Qed.

Lemma output_with_output v :
  output_of tr (with_output tr' v self)
  = if decide (tr = tr') then v else output_of tr self.
Proof. destruct tr, tr'; reflexivity. Qed.

Lemma io_with_index v : io (with_index tr v self) = io self.
Proof. destruct tr; reflexivity. Qed.

Lemma io_with_cache v : io (with_cache tr v self) = io self.
Proof. destruct tr; reflexivity. Qed.

Lemma io_with_output v : io (with_output tr v self) = io self.
Proof. destruct tr; reflexivity. Qed.

Lemma io_with_io v : io (with_io v self) = v.
Proof. reflexivity. Qed.
End Frames.

Create Rewrite HintDb frames.
#[global] Hint Rewrite index_with_output index_with_cache index_with_io
  index_with_index cache_with_output cache_with_index cache_with_io
  cache_with_cache output_with_index output_with_cache output_with_io
  output_with_output io_with_index io_with_cache io_with_output io_with_io
  : frames.

Lemma with_index_same tr idx self :
  index_of tr self = Some idx -> with_index tr (Some idx) self = self.
Proof. destruct tr, self; simpl; intros ->; reflexivity. Qed.

Lemma with_index_twice tr v w self :
  with_index tr v (with_index tr w self) = with_index tr v self.
Proof. destruct tr; reflexivity. Qed.

(** *** The cache getter *)

Lemma get_hit fs tr country data self :
  cache_of tr self !! country = Some data ->
  get_track_country_data fs tr country self = (Return (Some data), self).
Proof.
  intros H. unfold get_track_country_data, bind, get_cache. simpl.
  rewrite H. reflexivity.
Qed.

Lemma get_miss fs tr country self :
  cache_of tr self !! country = None ->
  get_track_country_data fs tr country self =
  let p := country_path country in
  match fs p with
  | Absent => (Return None, with_io (io self ++ [IOExists p]) self)
  | Unreadable msg =>
      (Return None,
       with_io (((io self ++ [IOExists p]) ++ [IOOpen p])
                ++ [IOPrint (country_error_line tr country (LoadError msg))])
         self)
  | Content data =>
      (Return (Some data),
       with_cache tr (<[country := data]> (cache_of tr self))
         (with_io ((io self ++ [IOExists p]) ++ [IOOpen p]) self))
  end.
Proof.
  intros H. unfold get_track_country_data, bind, get_cache. simpl.
  rewrite H. unfold try_except, path_exists, open_json_load, bind, emit, ret.
  simpl. destruct (fs (country_path country)); reflexivity.
Qed.

(** *** One block of [translate] *)

Lemma translate_track_unset fs tr text self :
  index_of tr self = None ->
  translate_track fs tr text self
  = (Raise (AttributeError (index_attr tr)), self).
Proof.
  intros H. unfold translate_track, bind, get_index. rewrite H. reflexivity.
Qed.

Lemma translate_track_run fs tr text idx self :
  index_of tr self = Some idx ->
  exists evs,
    translate_track fs tr text self =
    (Return tt,
     with_output tr (result_text fs idx (cache_of tr self) text)
       (with_cache tr (result_cache fs idx (cache_of tr self) text)
          (with_io (io self ++ evs) self))).
Proof.
  intros Hidx.
  unfold translate_track, bind, get_index, result_text, result_cache, fetch.
  rewrite Hidx.
  destruct (idx !! text) as [info|].
  - destruct (cache_of tr self !! Country info) as [data|] eqn:Hc.
    + rewrite (get_hit _ _ _ _ _ Hc). exists [].
      destruct data; destruct tr, self; simpl in *;
        rewrite app_nil_r; reflexivity.
    + rewrite (get_miss _ _ _ _ Hc). cbv zeta.
      destruct (fs (country_path (Country info))) as [|msg|data].
      * exists [IOExists (country_path (Country info))].
        destruct tr, self; reflexivity.
      * exists [IOExists (country_path (Country info));
                IOOpen (country_path (Country info));
                IOPrint (country_error_line tr (Country info)
                           (LoadError msg))].
        destruct tr, self; simpl; rewrite <- !app_assoc; reflexivity.
      * exists [IOExists (country_path (Country info));
                IOOpen (country_path (Country info))].
        destruct data; destruct tr, self; simpl; rewrite <- !app_assoc;
          reflexivity.
  - exists []. destruct tr, self; simpl; rewrite app_nil_r; reflexivity.
Qed.

(** A block leaves the indexes alone, whether it returns or raises. *)
Lemma translate_track_index fs tr text self tr' :
  index_of tr' (snd (translate_track fs tr text self)) = index_of tr' self.
Proof.
  destruct (index_of tr self) as [idx|] eqn:Hidx.
  - destruct (translate_track_run fs tr text idx self Hidx) as [evs ->].
    simpl. autorewrite with frames. reflexivity.
  - rewrite translate_track_unset by assumption. reflexivity.
Qed.

(** The cache of the block's own track after the block. *)
Lemma translate_track_cache fs tr text self :
  cache_of tr (snd (translate_track fs tr text self))
  = match index_of tr self with
    | Some idx => result_cache fs idx (cache_of tr self) text
    | None => cache_of tr self
    end.
Proof.
  destruct (index_of tr self) as [idx|] eqn:Hidx.
  - destruct (translate_track_run fs tr text idx self Hidx) as [evs ->].
    simpl. autorewrite with frames. rewrite decide_True by reflexivity.
    reflexivity.
  - rewrite translate_track_unset by assumption. reflexivity.
Qed.

(** A block touches neither the cache nor the result field of the other
    track. *)
Lemma translate_track_other fs tr text self tr' :
  tr' <> tr ->
  cache_of tr' (snd (translate_track fs tr text self)) = cache_of tr' self
  /\ output_of tr' (snd (translate_track fs tr text self))
     = output_of tr' self.
Proof.
  intros Hne. destruct (index_of tr self) as [idx|] eqn:Hidx.
  - destruct (translate_track_run fs tr text idx self Hidx) as [evs ->].
    simpl. autorewrite with frames. rewrite !decide_False by assumption.
    split; reflexivity.
  - rewrite translate_track_unset by assumption. split; reflexivity.
Qed.

Lemma translate_track_output fs tr text idx self :
  index_of tr self = Some idx ->
  output_of tr (snd (translate_track fs tr text self))
  = result_text fs idx (cache_of tr self) text.
Proof.
  intros Hidx.
  destruct (translate_track_run fs tr text idx self Hidx) as [evs ->].
  simpl. autorewrite with frames. rewrite decide_True by reflexivity.
  reflexivity.
Qed.

(** *** The whole method *)

Lemma translate_nonempty fs text self :
  text <> "" ->
  translate fs text self
  = (translate_track fs One text ;; translate_track fs SK text) self.
Proof. intros H. unfold translate. rewrite decide_False by assumption. reflexivity. Qed.

Lemma translate_index fs text self tr :
  index_of tr (snd (translate fs text self)) = index_of tr self.
Proof.
  unfold translate. destruct (decide (text = "")) as [_|_].
  - destruct tr; reflexivity.
  - unfold bind.
    destruct (translate_track fs One text self) as [[[]|e] s1] eqn:H1.
    + rewrite translate_track_index.
      change s1 with (snd (Return tt, s1)). rewrite <- H1.
      apply translate_track_index.
    + change s1 with (snd (@Raise unit e, s1)). rewrite <- H1.
      apply translate_track_index.
Qed.

(** The method on a non-empty text, seen from one track, when both indexes
    exist: it returns, and the track's field and cache are those its block
    computes from the track's own index and cache. *)
Lemma translate_run fs text self tr idx :
  loaded self -> text <> "" -> index_of tr self = Some idx ->
  fst (translate fs text self) = Return tt
  /\ output_of tr (snd (translate fs text self))
     = result_text fs idx (cache_of tr self) text
  /\ cache_of tr (snd (translate fs text self))
     = result_cache fs idx (cache_of tr self) text.
Proof.
  intros Hl Hne Hidx. rewrite translate_nonempty by assumption.
  destruct (Hl One) as [idx1 H1]. destruct (Hl SK) as [idx2 H2].
  unfold bind.
  destruct (translate_track_run fs One text idx1 self H1) as [evs1 ->].
  set (s1 := with_output One _ _).
  assert (H2' : index_of SK s1 = Some idx2).
  { subst s1. autorewrite with frames. assumption. }
  destruct (translate_track_run fs SK text idx2 s1 H2') as [evs2 ->].
  subst s1. split; [reflexivity|].
  destruct tr; simpl in *.
  - assert (idx = idx1) by congruence. subst idx. split; reflexivity.
  - assert (idx = idx2) by congruence. subst idx. split; reflexivity.
Qed.

(** *** The loader *)

Lemma make_record_run info self :
  make_record info self = (entry_record info, self).
Proof.
  unfold make_record, entry_record, subscript, bind.
  destruct (info !! "Country"); [|reflexivity].
  simpl. destruct (info !! "HID"); reflexivity.
Qed.

Lemma alias_loop_run tr info r aliases : forall idx self,
  index_of tr self = Some idx ->
  entry_record info = Return r ->
  for_each aliases
    (fun alias => r <- make_record info ;; index_setitem tr alias r) self
  = (Return tt, with_index tr (Some (add_keys r aliases idx)) self).
Proof.
  induction aliases as [|a aliases IH]; intros idx self Hidx Hr.
  - simpl. rewrite with_index_same by assumption. reflexivity.
  - simpl. unfold bind at 1 2. rewrite make_record_run, Hr.
    unfold index_setitem, bind, get_index, set_index. rewrite Hidx.
    rewrite (IH (<[a := r]> idx)).
    + rewrite with_index_twice. reflexivity.
    + autorewrite with frames. rewrite decide_True by reflexivity.
      reflexivity.
    + assumption.
Qed.

Lemma load_entry_run tr item idx self :
  index_of tr self = Some idx ->
  load_entry tr item self =
  match entry_record item.2 with
  | Return r =>
      (Return tt, with_index tr (Some (add_keys r (entry_keys item) idx)) self)
  | Raise e => (Raise e, self)
  end.
Proof.
  intros Hidx. destruct item as [name info]. unfold load_entry.
  unfold bind at 1. rewrite make_record_run. simpl.
  destruct (entry_record info) as [r|e] eqn:Hr; [|reflexivity].
  unfold index_setitem. unfold bind, get_index, set_index. rewrite Hidx.
  rewrite (alias_loop_run tr info r _ (<[name := r]> idx)).
  - rewrite with_index_twice. reflexivity.
  - autorewrite with frames. rewrite decide_True by reflexivity. reflexivity.
  - assumption.
Qed.

Lemma load_loop_run tr items : forall idx self,
  index_of tr self = Some idx ->
  for_each items (load_entry tr) self
  = (fst (build items idx), with_index tr (Some (snd (build items idx))) self).
Proof.
  induction items as [|item items IH]; intros idx self Hidx.
  - simpl. rewrite with_index_same by assumption. reflexivity.
  - simpl. unfold bind. rewrite (load_entry_run tr item idx self Hidx).
    destruct (entry_record item.2) as [r|e].
    + rewrite (IH (add_keys r (entry_keys item) idx)).
      * rewrite with_index_twice. reflexivity.
      * autorewrite with frames. rewrite decide_True by reflexivity.
        reflexivity.
    + simpl. rewrite with_index_same by assumption. reflexivity.
Qed.

Lemma load_track_run fs tr self :
  load_track fs tr self = (Return tt, loaded_state fs tr self).
Proof.
  unfold load_track, loaded_state, try_except, open_json_load.
  unfold bind at 1 2. simpl.
  destruct (fs (main_path tr)) as [|msg|items]; try reflexivity.
  simpl. unfold bind, set_index.
  rewrite (load_loop_run tr items ∅).
  - rewrite with_index_twice.
    destruct (build items ∅) as [[[]|e] idx]; reflexivity.
  - autorewrite with frames. rewrite decide_True by reflexivity. reflexivity.
Qed.

Lemma init_state fs :
  __init__ fs
  = let loads := loaded_state fs SK (loaded_state fs One blank) in
    with_io (io loads ++ icon_events fs) loads.
Proof.
  unfold __init__, load_main_data, load_sk_main_data.
  unfold bind at 1. rewrite load_track_run.
  unfold bind at 1. rewrite load_track_run.
  unfold bind, path_exists, emit, ret, setWindowIcon, icon_events. simpl.
  destruct (fs icon_path); simpl; rewrite <- ?app_assoc; reflexivity.
Qed.

Lemma init_index fs tr :
  index_of tr (__init__ fs)
  = match fs (main_path tr) with
    | Content items => Some (snd (build items ∅))
    | _ => None
    end.
Proof.
  rewrite init_state. cbv zeta. autorewrite with frames.
  unfold loaded_state.
  destruct tr; simpl;
    destruct (fs "Database/CsOne_main.json") as [|m1|i1];
    destruct (fs "Database/CsSK_main.json") as [|m2|i2]; simpl;
    try reflexivity;
    repeat match goal with
           | |- context [fst (build ?i ?m)] =>
               destruct (build i m) as [[[]|?] ?]; simpl
           end; reflexivity.
Qed.

Lemma init_cache fs tr : cache_of tr (__init__ fs) = ∅.
Proof.
  rewrite init_state. cbv zeta. autorewrite with frames.
  unfold loaded_state.
  destruct tr; simpl;
    destruct (fs "Database/CsOne_main.json") as [|m1|i1];
    destruct (fs "Database/CsSK_main.json") as [|m2|i2]; simpl;
    try reflexivity;
    repeat match goal with
           | |- context [fst (build ?i ?m)] =>
               destruct (build i m) as [[[]|?] ?]; simpl
           end; reflexivity.
Qed.

Lemma init_output fs tr :
  output_of tr (__init__ fs)
  = match fs (main_path tr) with
    | Absent => load_error_text tr (FileNotFoundError (main_path tr))
    | Unreadable msg => load_error_text tr (LoadError msg)
    | Content items =>
        match fst (build items ∅) with
        | Return _ => ""
        | Raise e => load_error_text tr e
        end
    end.
Proof.
  rewrite init_state. cbv zeta. autorewrite with frames.
  unfold loaded_state.
  destruct tr; simpl;
    destruct (fs "Database/CsOne_main.json") as [|m1|i1];
    destruct (fs "Database/CsSK_main.json") as [|m2|i2]; simpl;
    try reflexivity;
    repeat match goal with
           | |- context [fst (build ?i ?m)] =>
               destruct (build i m) as [[[]|?] ?]; simpl
           end; reflexivity.
Qed.

Lemma init_io fs :
  io (__init__ fs)
  = ([IOOpen (main_path One); IOOpen (main_path SK)] ++ icon_events fs)%list.
Proof.
  rewrite init_state. cbv zeta. rewrite io_with_io. f_equal.
  unfold loaded_state. simpl.
  destruct (fs "Database/CsOne_main.json") as [|m1|i1];
    destruct (fs "Database/CsSK_main.json") as [|m2|i2]; simpl;
    try reflexivity;
    repeat match goal with
           | |- context [fst (build ?i ?m)] =>
               destruct (build i m) as [[[]|?] ?]; simpl
           end; reflexivity.
Qed.

(** Both dictionaries parse: both indexes exist after start-up. *)
Lemma init_loaded fs items1 items2 :
  fs (main_path One) = Content items1 ->
  fs (main_path SK) = Content items2 ->
  loaded (__init__ fs).
Proof.
  intros H1 H2 tr. rewrite init_index.
  destruct tr; [rewrite H1|rewrite H2]; eauto.
Qed.

Lemma init_index_of fs tr items :
  fs (main_path tr) = Content items ->
  index_of tr (__init__ fs) = Some (snd (build items ∅)).
Proof. intros H. rewrite init_index, H. reflexivity. Qed.

(** *** Lookups in the index the loader builds *)

Lemma add_keys_lookup r keys : forall idx k,
  add_keys r keys idx !! k
  = if decide (k ∈ keys) then Some r else idx !! k.
Proof.
  induction keys as [|a keys IH]; intros idx k.
  - change (add_keys r [] idx) with idx.
    rewrite decide_False; [reflexivity|]. apply not_elem_of_nil.
  - change (add_keys r (a :: keys) idx) with (add_keys r keys (<[a := r]> idx)).
    rewrite IH. destruct (decide (k ∈ keys)) as [Hin|Hnin].
    + rewrite decide_True; [reflexivity|]. right. assumption.
    + destruct (decide (a = k)) as [->|Hne].
      * rewrite lookup_insert_eq. rewrite decide_True; [reflexivity|]. left.
      * rewrite lookup_insert_ne by assumption.
        rewrite decide_False; [reflexivity|].
        intros Hin. apply elem_of_cons in Hin as [->|Hin]; tauto.
Qed.

Lemma well_formed_record item :
  well_formed item -> exists r, entry_record item.2 = Return r.
Proof.
  intros [[c Hc] [h Hh]]. unfold entry_record. rewrite Hc, Hh. eauto.
Qed.

Lemma build_untouched k items : forall idx,
  (forall it, it ∈ items -> k ∉ entry_keys it) ->
  snd (build items idx) !! k = idx !! k.
Proof.
  induction items as [|item items IH]; intros idx Hk; [reflexivity|].
  simpl. destruct (entry_record item.2) as [r|e]; [|reflexivity].
  rewrite IH.
  - rewrite add_keys_lookup. rewrite decide_False; [reflexivity|].
    apply Hk. left.
  - intros it Hit. apply Hk. right. assumption.
Qed.

Lemma build_app pre rest : forall idx,
  Forall well_formed pre ->
  build (pre ++ rest) idx = build rest (snd (build pre idx)).
Proof.
  induction pre as [|item pre IH]; intros idx Hwf; [reflexivity|].
  apply Forall_cons in Hwf as [Hitem Hpre].
  destruct (well_formed_record item Hitem) as [r Hr].
  simpl. rewrite Hr. apply IH. assumption.
Qed.

Lemma build_ok items : forall idx,
  Forall well_formed items -> fst (build items idx) = Return tt.
Proof.
  induction items as [|item items IH]; intros idx Hwf; [reflexivity|].
  apply Forall_cons in Hwf as [Hitem Hitems].
  destruct (well_formed_record item Hitem) as [r Hr].
  simpl. rewrite Hr. apply IH. assumption.
Qed.

(** The last entry that contributes a key decides what the key maps to. *)
Lemma build_last pre item post idx k r :
  Forall well_formed pre ->
  entry_record item.2 = Return r ->
  k ∈ entry_keys item ->
  (forall it, it ∈ post -> k ∉ entry_keys it) ->
  snd (build (pre ++ item :: post) idx) !! k = Some r.
Proof.
  intros Hpre Hr Hin Hpost. rewrite build_app by assumption.
  simpl. rewrite Hr. rewrite build_untouched by assumption.
  rewrite add_keys_lookup. rewrite decide_True by assumption. reflexivity.
Qed.

(** *** What holds in every state of a run *)


Lemma result_cache_from fs idx cache text country data :
  result_cache fs idx cache text !! country = Some data ->
  cache !! country = Some data \/ fs (country_path country) = Content data.
Proof.
  unfold result_cache.
  destruct (idx !! text) as [info|]; [|tauto].
  destruct (cache !! Country info) eqn:Hc; [tauto|].
  destruct (fs (country_path (Country info))) eqn:Hf; try tauto.
  destruct (decide (Country info = country)) as [<-|Hne].
  - rewrite lookup_insert_eq. intros [= <-]. tauto.
  - rewrite lookup_insert_ne by assumption. tauto.
Qed.


Lemma translate_track_consistent fs tr text self :
  consistent fs self -> consistent fs (snd (translate_track fs tr text self)).
Proof.
  intros Hc tr' country data. destruct (decide (tr' = tr)) as [->|Hne].
  - rewrite translate_track_cache.
    destruct (index_of tr self); [|apply Hc].
    intros H. apply result_cache_from in H as [H|H]; [|assumption].
    apply (Hc tr). assumption.
  - destruct (translate_track_other fs tr text self tr' Hne) as [-> _].
    apply Hc.
Qed.

(** The three ways [translate] can end. *)
Lemma translate_cases fs text self :
  snd (translate fs text self) = with_output SK "" (with_output One "" self)
  \/ snd (translate fs text self) = snd (translate_track fs One text self)
  \/ snd (translate fs text self)
     = snd (translate_track fs SK text
              (snd (translate_track fs One text self))).
Proof.
  unfold translate. destruct (decide (text = "")) as [_|_].
  - left. reflexivity.
  - right. unfold bind.
    destruct (translate_track fs One text self) as [[[]|e] s1].
    + right. reflexivity.
    + left. reflexivity.
Qed.


Lemma translate_consistent fs text self :
  consistent fs self -> consistent fs (snd (translate fs text self)).
Proof.
  intros H. destruct (translate_cases fs text self) as [-> | [-> | ->]].
  - intros tr country data. autorewrite with frames. apply H.
  - apply translate_track_consistent. assumption.
  - do 2 apply translate_track_consistent. assumption.
Qed.

Lemma reachable_index fs self tr :
  reachable fs self -> index_of tr self = index_of tr (__init__ fs).
Proof.
  induction 1 as [|self text _ IH]; [reflexivity|].
  rewrite translate_index. assumption.
Qed.

Lemma reachable_consistent fs self : reachable fs self -> consistent fs self.
Proof.
  induction 1 as [|self text _ IH].
  - intros tr country data. rewrite init_cache, lookup_empty. discriminate.
  - apply translate_consistent. assumption.
Qed.

(** In a run, what the getter would hand back is decided by the file
    alone. *)
Lemma reachable_fetch fs self tr country :
  reachable fs self ->
  fetch fs (cache_of tr self) country
  = match fs (country_path country) with
    | Content data => Some data
    | _ => None
    end.
Proof.
  intros Hr. unfold fetch.
  destruct (cache_of tr self !! country) as [data|] eqn:Hc; [|reflexivity].
  rewrite (reachable_consistent fs self Hr tr country data Hc). reflexivity.
Qed.



(** *** The alias pattern *)

Lemma scan_nonempty s : forall run a, a ∈ scan run s -> a <> "".
Proof.
  induction s as [|c s IH]; intros run a Ha; simpl in Ha.
  - apply elem_of_nil in Ha. contradiction.
  - destruct run as [r|].
    + destruct (Ascii.eqb c close_brace); [|eauto].
      destruct r as [|c' r']; [eauto|].
      apply elem_of_cons in Ha as [->|Ha]; [discriminate|eauto].
    + destruct (Ascii.eqb c open_brace); eauto.
Qed.

(** No alias is the empty string. *)
Lemma findall_nonempty exegesis a : a ∈ findall exegesis -> a <> "".
Proof. apply scan_nonempty. Qed.

Lemma append_cons c (a b : string) : String c a +:+ b = String c (a +:+ b).
Proof. reflexivity. Qed.

Lemma append_assoc (a b c : string) : (a +:+ b) +:+ c = a +:+ (b +:+ c).
Proof.
  induction a as [|x a IH]; [reflexivity|].
  rewrite !append_cons. f_equal. exact IH.
Qed.

Lemma append_empty_r (a : string) : a +:+ "" = a.
Proof.
  induction a as [|x a IH]; [reflexivity|].
  rewrite append_cons. f_equal. exact IH.
Qed.

Lemma scan_skip pre rest :
  occurs open_brace pre = false ->
  scan None (pre +:+ rest) = scan None rest.
Proof.
  induction pre as [|c pre IH]; intros H; [reflexivity|].
  simpl in H. apply orb_false_iff in H as [Hc Hpre].
  rewrite append_cons. simpl. rewrite Hc. auto.
Qed.

Lemma scan_run X post : forall r,
  occurs close_brace X = false ->
  r +:+ X <> "" ->
  scan (Some r) (X +:+ String close_brace post) = (r +:+ X) :: scan None post.
Proof.
  induction X as [|c X IH]; intros r HX Hne.
  - rewrite append_empty_r in *. change ("" +:+ ?s) with s. simpl.
    destruct r; [contradiction|reflexivity].
  - simpl in HX. apply orb_false_iff in HX as [Hc HX].
    rewrite append_cons. simpl. rewrite Hc.
    rewrite (IH (r +:+ String c "")).
    + rewrite append_assoc. reflexivity.
    + assumption.
    + rewrite append_assoc. assumption.
Qed.

(** A token written [{X}] after a prefix without opening brace is found,
    and the search goes on behind it. *)
Lemma findall_token pre X post :
  occurs open_brace pre = false ->
  occurs close_brace X = false ->
  X <> "" ->
  findall (pre +:+ String open_brace (X +:+ String close_brace post))
  = X :: findall post.
Proof.
  intros Hpre HX Hne. unfold findall. rewrite scan_skip by assumption.
  simpl. apply (scan_run X post ""); assumption.
Qed.

Example findall_two : findall "岩王帝君{帝君}、{摩拉克斯}" = ["帝君"; "摩拉克斯"].
Proof. reflexivity. Qed.

Example findall_empty_token : findall "{}{a}" = ["a"].
Proof. reflexivity. Qed.

Example findall_unclosed : findall "x{a}y{}z{b" = ["a"].
Proof. reflexivity. Qed.

Example findall_stray_open : findall "{{a}" = ["{a"].
Proof. reflexivity. Qed.

(** ** The claims *)

(** *** C1 *)

(** A load that cannot read its file shows the error in the track's result
    field and never creates the index attribute. *)
Lemma load_failure_unset fs tr :
  (forall items, fs (main_path tr) <> Content items) ->
  index_of tr (__init__ fs) = None
  /\ exists e, output_of tr (__init__ fs) = load_error_text tr e.
Proof.
  intros H. rewrite init_index, init_output.
  destruct (fs (main_path tr)) as [|msg|items]; [eauto..|].
  exfalso. apply (H items). reflexivity.
Qed.

(** Without the English index, [translate] raises on every non-empty text
    and changes nothing: neither result field is written. *)
Lemma translate_unset_raises fs text self :
  name_to_info self = None -> text <> "" ->
  translate fs text self = (Raise (AttributeError "name_to_info"), self).
Proof.
  intros H Hne. rewrite translate_nonempty by assumption. unfold bind.
  rewrite (translate_track_unset fs One text self H). reflexivity.
Qed.

(** C1 (code defect).  The claim: when the primary dictionary file is missing
    or malformed, the loader shows an error string in the result field and
    leaves the alias index empty, so that later [translate] calls report the
    "no translation result" sentinel instead of crashing.  The code, with the
    English dictionary file missing: the error string is shown, but the
    attribute [name_to_info] is never assigned, and [translate] on a name of
    the (intact) Korean dictionary raises [AttributeError], leaving the
    English field on the load error and the Korean field empty. *)
Theorem C1_missing_dictionary_translate_raises :
  let self := __init__ missing_one_fs in
  name_to_info self = None
  /\ output_edit_1 self
     = "加载One主数据时异常：[Errno 2] No such file or directory: 'Database/CsOne_main.json'"
  /\ translate missing_one_fs "钟离" self
     = (Raise (AttributeError "name_to_info"), self)
  /\ output_edit_1 (snd (translate missing_one_fs "钟离" self)) <> no_result
  /\ output_edit_2 (snd (translate missing_one_fs "钟离" self)) = "".
Proof.
  cbv zeta.
  assert (H : name_to_info (__init__ missing_one_fs) = None)
    by (vm_compute; reflexivity).
  rewrite (translate_unset_raises _ "钟离" _ H) by discriminate.
  repeat split; try (vm_compute; reflexivity).
  vm_compute. discriminate.
Qed.

(** The other way a load fails: an entry without [Country] stops the loop
    with [KeyError], and the entries before it stay in the index. *)
Example C1_partial_index :
  let self := __init__ broken_entry_fs in
  output_edit_1 self = "加载One主数据时异常：'Country'"
  /\ (exists idx, name_to_info self = Some idx
        /\ idx !! "钟离" = Some {| Country := "Liyue"; HID := "h1" |}
        /\ idx !! "温迪" = None)
  /\ output_edit_1 (snd (translate broken_entry_fs "钟离" self)) = "Zhongli".
Proof.
  cbv zeta. split; [vm_compute; reflexivity|]. split.
  - eexists. split; [vm_compute; reflexivity|].
    split; vm_compute; reflexivity.
  - vm_compute. reflexivity.
Qed.

(** *** C2 *)

(** With the English index and without the Korean one, the English block
    runs and the method then raises. *)
Lemma translate_sk_unset fs text idx self :
  name_to_info self = Some idx ->
  sk_name_to_info self = None ->
  text <> "" ->
  translate fs text self
  = (Raise (AttributeError "sk_name_to_info"),
     snd (translate_track fs One text self)).
Proof.
  intros H1 H2 Hne. rewrite translate_nonempty by assumption. unfold bind.
  destruct (translate_track_run fs One text idx self H1) as [evs E].
  pose proof (translate_track_index fs One text self SK) as Hsk.
  rewrite E in *. cbn [snd] in *.
  set (s1 := with_output One _ _) in *.
  rewrite (translate_track_unset fs SK text s1) by (rewrite Hsk; exact H2).
  reflexivity.
Qed.

Lemma result_text_key fs idx cache t1 t2 :
  idx !! t1 = idx !! t2 ->
  result_text fs idx cache t1 = result_text fs idx cache t2.
Proof. intros H. unfold result_text. rewrite H. reflexivity. Qed.

Lemma result_cache_key fs idx cache t1 t2 :
  idx !! t1 = idx !! t2 ->
  result_cache fs idx cache t1 = result_cache fs idx cache t2.
Proof. intros H. unfold result_cache. rewrite H. reflexivity. Qed.

(** Two non-empty texts that the index of a track maps alike are translated
    alike on that track, whether or not the other index exists: the method
    ends the same way and leaves the same field and cache of the track. *)
Lemma translate_alike fs t1 t2 self tr idx :
  t1 <> "" -> t2 <> "" ->
  index_of tr self = Some idx ->
  idx !! t1 = idx !! t2 ->
  fst (translate fs t1 self) = fst (translate fs t2 self)
  /\ output_of tr (snd (translate fs t1 self))
     = output_of tr (snd (translate fs t2 self))
  /\ cache_of tr (snd (translate fs t1 self))
     = cache_of tr (snd (translate fs t2 self)).
Proof.
  intros H1 H2 Hidx Hk.
  destruct (name_to_info self) as [idx1|] eqn:E1.
  - destruct (sk_name_to_info self) as [idx2|] eqn:E2.
    + assert (Hl : loaded self)
        by (intros []; simpl; rewrite ?E1, ?E2; eauto).
      destruct (translate_run fs t1 self tr idx Hl H1 Hidx) as (-> & -> & ->).
      destruct (translate_run fs t2 self tr idx Hl H2 Hidx) as (-> & -> & ->).
      rewrite (result_text_key fs idx _ t1 t2 Hk).
      rewrite (result_cache_key fs idx _ t1 t2 Hk). auto.
    + rewrite (translate_sk_unset fs t1 idx1 self E1 E2 H1).
      rewrite (translate_sk_unset fs t2 idx1 self E1 E2 H2). cbn [fst snd].
      destruct tr; simpl in Hidx; [|congruence].
      rewrite !(translate_track_output fs One _ idx self) by exact Hidx.
      rewrite !translate_track_cache. simpl. rewrite Hidx.
      rewrite (result_text_key fs idx _ t1 t2 Hk).
      rewrite (result_cache_key fs idx _ t1 t2 Hk). auto.
  - rewrite !translate_unset_raises by assumption. auto.
Qed.

(** C2 as stated fails in two ways.  The [exegesis] 岩王帝君{{帝君} contains
    the bracketed token {帝君}, but the pattern extracts the alias {帝君 from
    it (the run starts at the first opening brace), so 帝君 is not a key and
    its translation is the "no translation result" sentinel, while the
    canonical name 钟离 gives Zhongli.  And for an entry whose canonical name
    is the empty string, the alias gives Zhongli while the name, being the
    empty text, clears the field. *)
Lemma C2_counterexample_nested_brace_and_empty_name :
  (let self := __init__ nested_brace_fs in
   bracketed "帝君" "岩王帝君{{帝君}"
   /\ fst (translate nested_brace_fs "帝君" self) = Return tt
   /\ fst (translate nested_brace_fs "钟离" self) = Return tt
   /\ output_edit_1 (snd (translate nested_brace_fs "帝君" self)) = no_result
   /\ output_edit_1 (snd (translate nested_brace_fs "钟离" self)) = "Zhongli"
   /\ output_edit_1 (snd (translate nested_brace_fs "帝君" self))
      <> output_edit_1 (snd (translate nested_brace_fs "钟离" self)))
  /\ (let self := __init__ empty_name_fs in
      bracketed "帝君" "{帝君}"
      /\ fst (translate empty_name_fs "帝君" self) = Return tt
      /\ fst (translate empty_name_fs "" self) = Return tt
      /\ output_edit_1 (snd (translate empty_name_fs "帝君" self)) = "Zhongli"
      /\ output_edit_1 (snd (translate empty_name_fs "" self)) = ""
      /\ output_edit_1 (snd (translate empty_name_fs "帝君" self))
         <> output_edit_1 (snd (translate empty_name_fs "" self))).
Proof.
  cbv zeta. split.
  - split; [exists "岩王帝君{", ""; reflexivity|].
    repeat split; try (vm_compute; reflexivity).
    vm_compute. discriminate.
  - split; [exists "", ""; reflexivity|].
    repeat split; try (vm_compute; reflexivity).
    vm_compute. discriminate.
Qed.

(** C2, amended.  Take a dictionary entry with a non-empty canonical name
    and an alias [X] that the pattern extracts from its [exegesis], in a
    dictionary whose entries up to and including this one have their
    [Country] and [HID], and such that no later entry contributes [X] or
    the canonical name as a key.  In every state of a run on unchanged
    files, translating [X] ends exactly as translating the canonical name
    does and leaves the same text in the track's result field and the same
    table cache of the track; both keys map to the [Country] and [HID] of
    this entry.  This holds also when the dictionary of the other track
    failed to load, where both calls raise the same [AttributeError]; when
    both indexes exist both calls return normally. *)
Theorem C2_alias_translates_as_canonical_name
    fs tr pre name info post X self :
  fs (main_path tr) = Content (pre ++ (name, info) :: post) ->
  Forall well_formed pre ->
  well_formed (name, info) ->
  X ∈ findall (default "" (info !! "exegesis")) ->
  (forall it, it ∈ post -> (X ∉ entry_keys it) /\ (name ∉ entry_keys it)) ->
  name <> "" ->
  reachable fs self ->
  fst (translate fs X self) = fst (translate fs name self)
  /\ output_of tr (snd (translate fs X self))
     = output_of tr (snd (translate fs name self))
  /\ cache_of tr (snd (translate fs X self))
     = cache_of tr (snd (translate fs name self))
  /\ (loaded self ->
      fst (translate fs X self) = Return tt
      /\ fst (translate fs name self) = Return tt)
  /\ exists idx r,
       index_of tr self = Some idx
       /\ idx !! X = Some r /\ idx !! name = Some r
       /\ info !! "Country" = Some (Country r)
       /\ info !! "HID" = Some (HID r).
Proof.
  intros Hfs Hpre Hitem HX Hpost Hname Hreach.
  set (idx := snd (build (pre ++ (name, info) :: post) ∅)).
  assert (Hidx : index_of tr self = Some idx).
  { rewrite (reachable_index fs self tr Hreach), init_index, Hfs.
    reflexivity. }
  destruct (well_formed_record _ Hitem) as [r Hr].
  assert (HkX : idx !! X = Some r).
  { apply build_last; try assumption.
    - unfold entry_keys. right. exact HX.
    - intros it Hit. apply (Hpost it Hit). }
  assert (Hkn : idx !! name = Some r).
  { apply build_last; try assumption.
    - unfold entry_keys. left.
    - intros it Hit. apply (Hpost it Hit). }
  assert (HXne : X <> "") by (eapply findall_nonempty; eassumption).
  destruct (translate_alike fs X name self tr idx HXne Hname Hidx)
    as (A & B & C); [rewrite HkX, Hkn; reflexivity|].
  split; [exact A|]. split; [exact B|]. split; [exact C|]. split.
  - intros Hl. split.
    + apply (translate_run fs X self tr idx Hl HXne Hidx).
    + apply (translate_run fs name self tr idx Hl Hname Hidx).
  - exists idx, r. split; [exact Hidx|]. split; [exact HkX|].
    split; [exact Hkn|].
    simpl in Hr. unfold entry_record in Hr.
    destruct (info !! "Country") as [c|]; [|discriminate].
    destruct (info !! "HID") as [h|]; [|discriminate].
    injection Hr as <-. split; reflexivity.
Qed.

Lemma C2_witness :
  output_of One (snd (translate demo_fs "摩拉克斯" (__init__ demo_fs)))
  = output_of One (snd (translate demo_fs "钟离" (__init__ demo_fs))).
Proof.
  apply (C2_alias_translates_as_canonical_name demo_fs One []
           "钟离"
           (obj [("Country", "Liyue"); ("HID", "h1");
                 ("exegesis", "岩王帝君{帝君}、{摩拉克斯}")])
           (tail demo_dictionary) "摩拉克斯" (__init__ demo_fs)).
  - reflexivity.
  - constructor.
  - split; vm_compute; eauto.
  - vm_compute. right. left.
  - intros it Hit. revert it Hit. apply Forall_forall.
    repeat constructor; vm_compute; intros H;
      repeat (apply elem_of_cons in H as [H|H]; [discriminate|]);
      apply elem_of_nil in H; exact H.
  - discriminate.
  - apply reach_init.
Defined.

(** *** C3 *)

(** Where both indexes exist, C3 holds: in a run on files among which the
    table of a name's country is absent, [translate] on that name (a
    non-empty text found in the track's index) returns normally and puts
    the "translation data not found" sentinel in the track's field; the
    getter itself returns [None] without raising. *)
Lemma absent_table_gives_no_data fs self tr text idx info :
  reachable fs self ->
  loaded self ->
  text <> "" ->
  index_of tr self = Some idx ->
  idx !! text = Some info ->
  fs (country_path (Country info)) = Absent ->
  fst (translate fs text self) = Return tt
  /\ output_of tr (snd (translate fs text self)) = no_data
  /\ fst (get_track_country_data fs tr (Country info) self) = Return None.
Proof.
  intros Hreach Hloaded Hne Hidx Hin Habs.
  destruct (translate_run fs text self tr idx Hloaded Hne Hidx)
    as (R & O & _).
  split; [exact R|]. split.
  - rewrite O. unfold result_text. rewrite Hin.
    rewrite (reachable_fetch fs self tr _ Hreach), Habs. reflexivity.
  - destruct (cache_of tr self !! Country info) as [data|] eqn:Hc.
    + apply (reachable_consistent fs self Hreach) in Hc. congruence.
    + rewrite (get_miss _ _ _ _ Hc). cbv zeta. rewrite Habs. reflexivity.
Qed.

(** C3 (code defect, the one of C1).  The claim: for every name in the
    alias index whose country's table file is absent, [translate] gives the
    "translation data not found" sentinel and no exception escapes.  The
    code, started without the English dictionary file: 巴巴托斯 is in the
    Korean index, the table file of its country is absent, and [translate]
    raises [AttributeError] at the English lookup, before the Korean block;
    the Korean field stays empty instead of showing the sentinel. *)
Theorem C3_failed_load_absent_table_raises :
  let self := __init__ missing_one_fs in
  (exists idx,
     sk_name_to_info self = Some idx
     /\ idx !! "巴巴托斯" = Some {| Country := "Mondstadt"; HID := "h3" |})
  /\ missing_one_fs (country_path "Mondstadt") = Absent
  /\ translate missing_one_fs "巴巴托斯" self
     = (Raise (AttributeError "name_to_info"), self)
  /\ output_edit_2 (snd (translate missing_one_fs "巴巴托斯" self)) = ""
  /\ output_edit_2 (snd (translate missing_one_fs "巴巴托斯" self)) <> no_data.
Proof.
  cbv zeta.
  assert (H : name_to_info (__init__ missing_one_fs) = None)
    by (apply (init_index missing_one_fs One)).
  rewrite (translate_unset_raises _ "巴巴托斯" _ H) by discriminate.
  split.
  { exists (snd (build demo_dictionary ∅)).
    split; [apply (init_index_of missing_one_fs SK); reflexivity|].
    vm_compute. reflexivity. }
  repeat split; try (vm_compute; reflexivity).
  vm_compute. discriminate.
Qed.

(** The same defect on the other side: without the Korean dictionary file,
    the English block shows the sentinel for 巴巴托斯 and the exception of
    the Korean lookup then escapes. *)
Example C3_failed_korean_load_exception_escapes :
  let self := __init__ missing_sk_fs in
  fst (translate missing_sk_fs "巴巴托斯" self)
  = Raise (AttributeError "sk_name_to_info")
  /\ output_edit_1 (snd (translate missing_sk_fs "巴巴托斯" self)) = no_data.
Proof. cbv zeta. split; vm_compute; reflexivity. Qed.

(** *** C4 *)




(** *** C5 *)

(** The getter returns [None] exactly when the code is not cached and its
    file is unavailable. *)
Lemma get_fails_iff fs tr country self :
  fst (get_track_country_data fs tr country self) = Return None
  <-> cache_of tr self !! country = None
      /\ unavailable (fs (country_path country)).
Proof.
  unfold unavailable.
  destruct (cache_of tr self !! country) as [d|] eqn:Hc.
  - rewrite (get_hit _ _ _ _ _ Hc). simpl. split; [discriminate|].
    intros [? _]. discriminate.
  - rewrite (get_miss _ _ _ _ Hc). cbv zeta.
    destruct (fs (country_path country)) as [|msg|data]; simpl.
    + split; auto.
    + split; eauto.
    + split; [discriminate|]. intros [_ [?|[msg ?]]]; discriminate.
Qed.

(** C5.  When the lookup of a country code fails (the code is not cached
    and its file is absent or unparsable), the getter returns [None] and both
    caches are as before, so no negative entry is stored; the next get for
    the same code starts by testing the file again, and returns the table if
    the file has become readable. *)
Theorem C5_failed_get_is_not_cached fs tr country self :
  cache_of tr self !! country = None ->
  unavailable (fs (country_path country)) ->
  let self' := snd (get_track_country_data fs tr country self) in
  fst (get_track_country_data fs tr country self) = Return None
  /\ (forall tr', cache_of tr' self' = cache_of tr' self)
  /\ (forall fs', exists evs : list IOEvent,
        io (snd (get_track_country_data fs' tr country self'))
        = (io self' ++ IOExists (country_path country) :: evs)%list)
  /\ (forall fs' data,
        fs' (country_path country) = Content data ->
        fst (get_track_country_data fs' tr country self')
        = Return (Some data)).
Proof.
  intros Hc Hfile self'.
  assert (Hfail : fst (get_track_country_data fs tr country self)
                  = Return None) by (apply get_fails_iff; auto).
  assert (Hsame : forall tr', cache_of tr' self' = cache_of tr' self).
  { intros tr'. subst self'. rewrite (get_miss _ _ _ _ Hc) in *.
    cbv zeta in *. destruct (fs (country_path country));
      simpl in *; autorewrite with frames; try reflexivity.
    discriminate. }
  assert (Hc' : cache_of tr self' !! country = None)
    by (rewrite Hsame; assumption).
  split; [exact Hfail|]. split; [exact Hsame|]. split.
  - intros fs'. rewrite (get_miss _ _ _ _ Hc'). cbv zeta.
    destruct (fs' (country_path country)); simpl; autorewrite with frames;
      rewrite <- ?app_assoc; eexists; reflexivity.
  - intros fs' data Hf. rewrite (get_miss _ _ _ _ Hc'). cbv zeta.
    rewrite Hf. reflexivity.
Qed.

Lemma C5_witness :
  let self' := snd (get_country_data demo_fs "Mondstadt" (__init__ demo_fs)) in
  fst (get_country_data demo_fs "Mondstadt" (__init__ demo_fs)) = Return None
  /\ forall tr', cache_of tr' self' = cache_of tr' (__init__ demo_fs).
Proof.
  cbv zeta. unfold get_country_data.
  destruct (C5_failed_get_is_not_cached demo_fs One "Mondstadt"
              (__init__ demo_fs)) as (H1 & H2 & _).
  - vm_compute. reflexivity.
  - left. vm_compute. reflexivity.
  - split; assumption.
Defined.

(** *** C6 *)

(** C6.  When two distinct entries of a dictionary contribute the same key
    (as name or as alias), the load goes through without any error text, and
    the key maps to the [Country] and [HID] of the entry processed later
    (the last one that contributes the key). *)
Theorem C6_later_entry_overwrites
    fs tr pre name1 info1 mid name2 info2 post k c h :
  fs (main_path tr)
  = Content (pre ++ (name1, info1) :: mid ++ (name2, info2) :: post) ->
  Forall well_formed
    (pre ++ (name1, info1) :: mid ++ (name2, info2) :: post) ->
  name1 <> name2 ->
  k ∈ entry_keys (name1, info1) ->
  k ∈ entry_keys (name2, info2) ->
  (forall it, it ∈ post -> k ∉ entry_keys it) ->
  info2 !! "Country" = Some c ->
  info2 !! "HID" = Some h ->
  output_of tr (__init__ fs) = ""
  /\ exists idx,
       index_of tr (__init__ fs) = Some idx
       /\ idx !! k = Some {| Country := c; HID := h |}.
Proof.
  intros Hfs Hwf _ _ Hk2 Hpost Hc Hh. split.
  - rewrite init_output, Hfs. rewrite build_ok by assumption. reflexivity.
  - eexists. split; [rewrite init_index, Hfs; reflexivity|].
    rewrite app_comm_cons, app_assoc in Hwf |- *.
    apply Forall_app in Hwf as [Hpre _].
    apply build_last; try assumption.
    simpl. unfold entry_record. rewrite Hc, Hh. reflexivity.
Qed.

Lemma C6_witness :
  exists idx,
    name_to_info (__init__ collision_fs) = Some idx
    /\ idx !! "老师" = Some {| Country := "Mondstadt"; HID := "h3" |}.
Proof.
  apply (C6_later_entry_overwrites collision_fs One []
           "钟离"
           (obj [("Country", "Liyue"); ("HID", "h1"); ("exegesis", "{老师}")])
           []
           "温迪"
           (obj [("Country", "Mondstadt"); ("HID", "h3");
                 ("exegesis", "{老师}")])
           [] "老师" "Mondstadt" "h3").
  - reflexivity.
  - repeat constructor; vm_compute; eauto.
  - discriminate.
  - vm_compute. right. left.
  - vm_compute. right. left.
  - intros it Hit. apply elem_of_nil in Hit. contradiction.
  - vm_compute. reflexivity.
  - vm_compute. reflexivity.
Defined.

(** *** C7 *)

(** C7 as stated fails: the table of Fontaine loads (it is the empty JSON
    object), it does not contain the HID of 那维莱特, and [translate] answers
    with the "translation data not found" sentinel, not with "Unknown". *)
Lemma C7_counterexample_empty_table :
  let self := __init__ demo_fs in
  (exists idx,
     name_to_info self = Some idx
     /\ idx !! "那维莱特" = Some {| Country := "Fontaine"; HID := "h4" |})
  /\ fst (get_country_data demo_fs "Fontaine" self) = Return (Some [])
  /\ dict_get [] "h4" = None
  /\ fst (translate demo_fs "那维莱特" self) = Return tt
  /\ output_edit_1 (snd (translate demo_fs "那维莱特" self)) = no_data
  /\ output_edit_1 (snd (translate demo_fs "那维莱特" self)) <> unknown.
Proof.
  cbv zeta. split.
  { eexists. split; vm_compute; reflexivity. }
  repeat split; try (vm_compute; reflexivity).
  vm_compute. discriminate.
Qed.

(** C7, amended.  In a run on unchanged files in which both alias indexes
    exist, and among whose files the table of a name's country is a
    non-empty JSON object without the name's HID as a key, [translate] on
    that name (a non-empty text found in the track's index) returns
    normally and puts the literal "Unknown" in the track's field.  The
    states in which an index attribute is missing are those of the defect
    of C1 and are left out. *)
Theorem C7_missing_hid_gives_unknown fs self tr text idx info table :
  reachable fs self ->
  loaded self ->
  text <> "" ->
  index_of tr self = Some idx ->
  idx !! text = Some info ->
  fs (country_path (Country info)) = Content table ->
  table <> [] ->
  dict_get table (HID info) = None ->
  fst (translate fs text self) = Return tt
  /\ output_of tr (snd (translate fs text self)) = "Unknown".
Proof.
  intros Hreach Hloaded Hne Hidx Hin Hfile Htable Hhid.
  destruct (translate_run fs text self tr idx Hloaded Hne Hidx)
    as (R & O & _).
  split; [exact R|].
  rewrite O. unfold result_text. rewrite Hin.
  rewrite (reachable_fetch fs self tr _ Hreach), Hfile.
  destruct table as [|e d]; [contradiction|].
  rewrite Hhid. reflexivity.
Qed.

Lemma C7_witness :
  output_of One (snd (translate demo_fs "胡桃" (__init__ demo_fs)))
  = "Unknown".
Proof.
  apply (C7_missing_hid_gives_unknown demo_fs (__init__ demo_fs) One
           "胡桃" (snd (build demo_dictionary ∅))
           {| Country := "Liyue"; HID := "h2" |} liyue_table).
  - apply reach_init.
  - apply (init_loaded demo_fs demo_dictionary demo_dictionary);
      reflexivity.
  - discriminate.
  - apply (init_index_of demo_fs One demo_dictionary). reflexivity.
  - vm_compute. reflexivity.
  - vm_compute. reflexivity.
  - discriminate.
  - vm_compute. reflexivity.
Defined.

(** Where an index attribute is missing the method raises instead (the
    defect of C1): started without the English dictionary file, [translate]
    on 胡桃, whose HID the table of Liyue lacks, leaves the Korean field
    empty. *)
Example C7_failed_load_raises :
  let self := __init__ missing_one_fs in
  fst (translate missing_one_fs "胡桃" self)
  = Raise (AttributeError "name_to_info")
  /\ output_edit_2 (snd (translate missing_one_fs "胡桃" self)) = "".
Proof. cbv zeta. split; vm_compute; reflexivity. Qed.

(** *** C8 *)

(** C8.  On the empty text [translate] returns after setting both result
    fields to the empty string and nothing else: indexes, caches and I/O
    trace are untouched.  It does so in every state, also one whose index
    attributes do not exist, where any index lookup would raise, and
    whatever the caches and the files hold. *)
Theorem C8_empty_input_clears_both_fields fs self :
  translate fs "" self = (Return tt, with_output SK "" (with_output One "" self))
  /\ output_edit_1 (snd (translate fs "" self)) = ""
  /\ output_edit_2 (snd (translate fs "" self)) = ""
  /\ io (snd (translate fs "" self)) = io self
  /\ (forall tr,
        index_of tr (snd (translate fs "" self)) = index_of tr self
        /\ cache_of tr (snd (translate fs "" self)) = cache_of tr self).
Proof.
  repeat split; try reflexivity; destruct tr; reflexivity.
Qed.

(** *** C9 *)

(** Where both indexes exist, C9 holds: on a non-empty text that is not a
    key of a track's alias index, [translate] returns normally and puts the
    "no translation result" sentinel in that track's field. *)
Lemma unknown_text_gives_no_result fs self tr text idx :
  loaded self ->
  text <> "" ->
  index_of tr self = Some idx ->
  idx !! text = None ->
  fst (translate fs text self) = Return tt
  /\ output_of tr (snd (translate fs text self)) = no_result.
Proof.
  intros Hloaded Hne Hidx Hout.
  destruct (translate_run fs text self tr idx Hloaded Hne Hidx)
    as (R & O & _).
  split; [exact R|].
  rewrite O. unfold result_text. rewrite Hout. reflexivity.
Qed.

(** C9 (code defect, the one of C1).  The claim: for every non-empty text
    that is not in a track's alias index, [translate] gives the "no
    translation result" sentinel for that track.  The code, started without
    the English dictionary file: 派蒙 is not a key of the (intact) Korean
    index, and [translate] raises [AttributeError] at the English lookup;
    the Korean field stays empty instead of showing the sentinel. *)
Theorem C9_failed_load_unknown_text_raises :
  let self := __init__ missing_one_fs in
  (exists idx,
     sk_name_to_info self = Some idx /\ idx !! "派蒙" = None)
  /\ translate missing_one_fs "派蒙" self
     = (Raise (AttributeError "name_to_info"), self)
  /\ output_edit_2 (snd (translate missing_one_fs "派蒙" self)) = ""
  /\ output_edit_2 (snd (translate missing_one_fs "派蒙" self)) <> no_result.
Proof.
  cbv zeta.
  assert (H : name_to_info (__init__ missing_one_fs) = None)
    by (apply (init_index missing_one_fs One)).
  rewrite (translate_unset_raises _ "派蒙" _ H) by discriminate.
  split.
  { exists (snd (build demo_dictionary ∅)).
    split; [apply (init_index_of missing_one_fs SK); reflexivity|].
    vm_compute. reflexivity. }
  repeat split; try (vm_compute; reflexivity).
  vm_compute. discriminate.
Qed.

(** *** C10 *)

(** Where both indexes exist, C10 holds: in a run on files among which the
    table of a name's country parses to the empty JSON object, [translate]
    on that name (a non-empty text found in the track's index) returns
    normally, the empty table is in the track's cache afterwards, and the
    track's field holds the "translation data not found" sentinel, as for a
    table that is unavailable, and not "Unknown". *)
Lemma empty_table_cached_but_no_data fs self tr text idx info :
  reachable fs self ->
  loaded self ->
  text <> "" ->
  index_of tr self = Some idx ->
  idx !! text = Some info ->
  fs (country_path (Country info)) = Content [] ->
  fst (translate fs text self) = Return tt
  /\ cache_of tr (snd (translate fs text self)) !! Country info = Some []
  /\ output_of tr (snd (translate fs text self)) = no_data
  /\ output_of tr (snd (translate fs text self)) <> "Unknown".
Proof.
  intros Hreach Hloaded Hne Hidx Hin Hfile.
  destruct (translate_run fs text self tr idx Hloaded Hne Hidx)
    as (R & O & C).
  assert (Hout : output_of tr (snd (translate fs text self)) = no_data).
  { rewrite O. unfold result_text. rewrite Hin.
    rewrite (reachable_fetch fs self tr _ Hreach), Hfile. reflexivity. }
  split; [exact R|]. split; [|split; [exact Hout|]].
  - rewrite C. unfold result_cache. rewrite Hin.
    destruct (cache_of tr self !! Country info) as [data|] eqn:Hc.
    + rewrite Hc. f_equal.
      apply (reachable_consistent fs self Hreach) in Hc. congruence.
    + rewrite Hfile. apply lookup_insert_eq.
  - rewrite Hout. discriminate.
Qed.

(** C10 (code defect, the one of C1).  The claim: when a country table file
    parses to the empty JSON object, the table is cached and [translate]
    gives the "translation data not found" sentinel for every name mapping
    to that country.  The code, started without the English dictionary
    file: 那维莱特 is in the Korean index, the table file of its country
    holds the empty object, and [translate] raises [AttributeError] at the
    English lookup; the table is not cached and the Korean field stays
    empty instead of showing the sentinel. *)
Theorem C10_failed_load_empty_table_raises :
  let self := __init__ missing_one_fs in
  (exists idx,
     sk_name_to_info self = Some idx
     /\ idx !! "那维莱特" = Some {| Country := "Fontaine"; HID := "h4" |})
  /\ missing_one_fs (country_path "Fontaine") = Content []
  /\ translate missing_one_fs "那维莱特" self
     = (Raise (AttributeError "name_to_info"), self)
  /\ sk_country_data_cache (snd (translate missing_one_fs "那维莱特" self))
     !! "Fontaine" = None
  /\ output_edit_2 (snd (translate missing_one_fs "那维莱特" self)) = ""
  /\ output_edit_2 (snd (translate missing_one_fs "那维莱特" self))
     <> no_data.
Proof.
  cbv zeta.
  assert (H : name_to_info (__init__ missing_one_fs) = None)
    by (apply (init_index missing_one_fs One)).
  rewrite (translate_unset_raises _ "那维莱特" _ H) by discriminate.
  split.
  { exists (snd (build demo_dictionary ∅)).
    split; [apply (init_index_of missing_one_fs SK); reflexivity|].
    vm_compute. reflexivity. }
  repeat split; try (vm_compute; reflexivity).
  vm_compute. discriminate.
Qed.

(** * Further properties of the code *)

(** ** The alias pattern *)

Lemma occurs_append c (a b : string) :
  occurs c (a +:+ b) = occurs c a || occurs c b.
Proof.
  induction a as [|x a IH]; [reflexivity|].
  rewrite append_cons. simpl. rewrite IH. apply orb_assoc.
Qed.

Lemma bracketed_cons c a s : bracketed a s -> bracketed a (String c s).
Proof.
  intros (pre & post & ->). exists (String c pre), post. reflexivity.
Qed.

Lemma scan_sound s : forall run a,
  a ∈ scan run s ->
  match run with
  | None => bracketed a s /\ occurs close_brace a = false
  | Some r =>
      occurs close_brace r = false ->
      (exists x post,
          a = r +:+ x /\ s = x +:+ String close_brace post
          /\ occurs close_brace x = false)
      \/ (bracketed a s /\ occurs close_brace a = false)
  end.
Proof.
  induction s as [|c s IH]; intros run a Ha; simpl in Ha.
  { apply elem_of_nil in Ha. contradiction. }
  destruct run as [r|].
  - intros Hr. destruct (Ascii.eqb c close_brace) eqn:Hc.
    + apply Ascii.eqb_eq in Hc. subst c.
      assert (Hrest : a ∈ scan None s ->
                bracketed a (String close_brace s)
                /\ occurs close_brace a = false).
      { intros H. destruct (IH None a H) as [Hb Ho].
        split; [apply bracketed_cons|]; assumption. }
      destruct r as [|c' r']; [right; auto|].
      apply elem_of_cons in Ha as [->|Ha]; [|right; auto].
      left. exists "", s. rewrite append_empty_r. auto.
    + specialize (IH (Some (r +:+ String c "")) a Ha).
      destruct IH as [(x & post & -> & -> & Hx) | [Hb Ho]].
      * rewrite occurs_append, Hr. simpl. rewrite Hc. reflexivity.
      * left. exists (String c x), post. rewrite append_assoc.
        repeat split; try reflexivity. simpl. rewrite Hc. exact Hx.
      * right. split; [apply bracketed_cons|]; assumption.
  - destruct (Ascii.eqb c open_brace) eqn:Hc.
    + apply Ascii.eqb_eq in Hc. subst c.
      destruct (IH (Some "") a Ha eq_refl)
        as [(x & post & -> & -> & Hx) | [Hb Ho]].
      * split; [|exact Hx]. exists "", post. reflexivity.
      * split; [apply bracketed_cons|]; assumption.
    + destruct (IH None a Ha) as [Hb Ho].
      split; [apply bracketed_cons|]; assumption.
Qed.

(** X1.  Every alias [re.findall] returns is a non-empty text without
    closing brace that stands between braces in the scanned text. *)
Theorem findall_alias_is_bracketed exegesis a :
  a ∈ findall exegesis ->
  a <> "" /\ occurs close_brace a = false /\ bracketed a exegesis.
Proof.
  intros Ha. split; [eapply findall_nonempty; eassumption|].
  destruct (scan_sound exegesis None a Ha) as [Hb Ho]. auto.
Qed.

Lemma findall_alias_is_bracketed_witness :
  bracketed "摩拉克斯" "岩王帝君{帝君}、{摩拉克斯}".
Proof.
  apply (findall_alias_is_bracketed "岩王帝君{帝君}、{摩拉克斯}" "摩拉克斯").
  vm_compute. right. left.
Defined.




(** ** The loader *)

Lemma build_keeps items : forall idx k,
  is_Some (idx !! k) -> is_Some (snd (build items idx) !! k).
Proof.
  induction items as [|item items IH]; intros idx k Hk; [exact Hk|].
  simpl. destruct (entry_record item.2) as [r|e]; [|exact Hk].
  apply IH. rewrite add_keys_lookup.
  destruct (decide (k ∈ entry_keys item)); eauto.
Qed.

Lemma build_complete items : forall idx it k,
  Forall well_formed items ->
  it ∈ items -> k ∈ entry_keys it ->
  is_Some (snd (build items idx) !! k).
Proof.
  induction items as [|item items IH]; intros idx it k Hwf Hit Hk.
  { apply elem_of_nil in Hit. contradiction. }
  apply Forall_cons in Hwf as [Hitem Hitems].
  destruct (well_formed_record item Hitem) as [r Hr].
  simpl. rewrite Hr.
  apply elem_of_cons in Hit as [->|Hit].
  - apply build_keeps. rewrite add_keys_lookup.
    rewrite decide_True by assumption. eauto.
  - eapply IH; eassumption.
Qed.

Lemma build_provenance items : forall idx k r,
  snd (build items idx) !! k = Some r ->
  idx !! k = Some r
  \/ exists it, it ∈ items /\ k ∈ entry_keys it
                /\ entry_record it.2 = Return r.
Proof.
  induction items as [|item items IH]; intros idx k r H; [left; exact H|].
  simpl in H. destruct (entry_record item.2) as [r'|e] eqn:Hr;
    [|left; exact H].
  apply IH in H as [H | (it & Hit & Hk & Hrec)].
  - rewrite add_keys_lookup in H.
    destruct (decide (k ∈ entry_keys item)) as [Hin|Hnin]; [|left; exact H].
    injection H as <-. right. exists item. split; [left|]. auto.
  - right. exists it. split; [right; exact Hit|]. auto.
Qed.

(** X3.  After the load of a dictionary whose entries all have [Country]
    and [HID], the index holds exactly the names and aliases of its entries,
    and what a key maps to is the [Country] and [HID] of an entry that lists
    the key. *)
Theorem index_holds_exactly_the_entry_keys fs tr items :
  fs (main_path tr) = Content items ->
  Forall well_formed items ->
  exists idx,
    index_of tr (__init__ fs) = Some idx
    /\ (forall k,
          is_Some (idx !! k) <-> exists it, it ∈ items /\ k ∈ entry_keys it)
    /\ (forall k r,
          idx !! k = Some r ->
          exists it,
            it ∈ items /\ k ∈ entry_keys it
            /\ it.2 !! "Country" = Some (Country r)
            /\ it.2 !! "HID" = Some (HID r)).
Proof.
  intros Hfs Hwf. exists (snd (build items ∅)).
  split; [rewrite init_index, Hfs; reflexivity|].
  assert (Hprov : forall k r,
            snd (build items ∅) !! k = Some r ->
            exists it, it ∈ items /\ k ∈ entry_keys it
                       /\ entry_record it.2 = Return r).
  { intros k r H. apply build_provenance in H as [H|H]; [|exact H].
    rewrite lookup_empty in H. discriminate. }
  split.
  - intros k. split.
    + intros [r H]. destruct (Hprov k r H) as (it & Hit & Hk & _). eauto.
    + intros (it & Hit & Hk). eapply build_complete; eassumption.
  - intros k r H. destruct (Hprov k r H) as (it & Hit & Hk & Hrec).
    exists it. split; [exact Hit|]. split; [exact Hk|].
    unfold entry_record in Hrec.
    destruct (it.2 !! "Country") as [c|]; [|discriminate].
    destruct (it.2 !! "HID") as [h|]; [|discriminate].
    injection Hrec as <-. split; reflexivity.
Qed.

Lemma index_holds_exactly_the_entry_keys_witness :
  exists idx,
    name_to_info (__init__ demo_fs) = Some idx
    /\ (forall k,
          is_Some (idx !! k)
          <-> exists it, it ∈ demo_dictionary /\ k ∈ entry_keys it).
Proof.
  destruct (index_holds_exactly_the_entry_keys demo_fs One demo_dictionary)
    as (idx & H1 & H2 & _).
  - reflexivity.
  - repeat constructor; vm_compute; eauto.
  - exists idx. split; assumption.
Defined.

(** X4.  An alias written between braces at the first opening brace of
    an entry's [exegesis] can be translated: after the load of a dictionary
    whose entries all have [Country] and [HID], it is a key of the index. *)
Theorem first_written_alias_is_indexed fs tr items name info pre X post :
  fs (main_path tr) = Content items ->
  Forall well_formed items ->
  (name, info) ∈ items ->
  info !! "exegesis"
  = Some (pre +:+ String open_brace (X +:+ String close_brace post)) ->
  occurs open_brace pre = false ->
  occurs close_brace X = false ->
  X <> "" ->
  exists idx,
    index_of tr (__init__ fs) = Some idx /\ is_Some (idx !! X).
Proof.
  intros Hfs Hwf Hin He Hpre HX Hne.
  exists (snd (build items ∅)).
  split; [rewrite init_index, Hfs; reflexivity|].
  apply (build_complete items ∅ (name, info) X Hwf Hin).
  unfold entry_keys. simpl. rewrite He. simpl.
  rewrite findall_token by assumption. right. left.
Qed.

Lemma first_written_alias_is_indexed_witness :
  exists idx,
    index_of One (__init__ demo_fs) = Some idx /\ is_Some (idx !! "帝君").
Proof.
  apply (first_written_alias_is_indexed demo_fs One demo_dictionary "钟离"
           (obj [("Country", "Liyue"); ("HID", "h1");
                 ("exegesis", "岩王帝君{帝君}、{摩拉克斯}")])
           "岩王帝君" "帝君" "、{摩拉克斯}").
  - reflexivity.
  - repeat constructor; vm_compute; eauto.
  - left.
  - vm_compute. reflexivity.
  - vm_compute. reflexivity.
  - vm_compute. reflexivity.
  - discriminate.
Defined.

Lemma build_stops pre bad post : forall idx,
  Forall well_formed pre ->
  ~ well_formed bad ->
  build (pre ++ bad :: post) idx
  = (Raise (KeyError (missing_key bad.2)), snd (build pre idx)).
Proof.
  intros idx Hpre Hbad. rewrite build_app by assumption. simpl.
  unfold well_formed in Hbad. unfold entry_record, missing_key.
  destruct (bad.2 !! "Country") as [c|] eqn:Hc; [|reflexivity].
  destruct (bad.2 !! "HID") as [h|] eqn:Hh; [|reflexivity].
  exfalso. apply Hbad. split; eauto.
Qed.

(** X5.  An entry without [Country] or [HID] stops the load: the field of
    the track shows the text of the [KeyError] ([Country] is looked up
    first), and the index is the one the entries before it alone would have
    given, so no later entry is indexed. *)
Theorem malformed_entry_truncates_the_index fs fs' tr pre bad post :
  fs (main_path tr) = Content (pre ++ bad :: post) ->
  fs' (main_path tr) = Content pre ->
  Forall well_formed pre ->
  ~ well_formed bad ->
  index_of tr (__init__ fs) = index_of tr (__init__ fs')
  /\ is_Some (index_of tr (__init__ fs))
  /\ output_of tr (__init__ fs)
     = load_error_text tr (KeyError (missing_key bad.2)).
Proof.
  intros Hfs Hfs' Hpre Hbad.
  rewrite !init_index, init_output, Hfs, Hfs'.
  rewrite (build_stops pre bad post ∅ Hpre Hbad). simpl. eauto.
Qed.

Lemma malformed_entry_truncates_the_index_witness :
  output_edit_1 (__init__ broken_entry_fs) = "加载One主数据时异常：'Country'".
Proof.
  apply (malformed_entry_truncates_the_index broken_entry_fs
           (fun _ => Content [("钟离", obj [("Country", "Liyue");
                                            ("HID", "h1")])])
           One
           [("钟离", obj [("Country", "Liyue"); ("HID", "h1")])]
           ("胡桃", obj [("HID", "h2")])
           [("温迪", obj [("Country", "Mondstadt"); ("HID", "h3")])]).
  - reflexivity.
  - reflexivity.
  - repeat constructor; vm_compute; eauto.
  - intros [[c Hc] _]. vm_compute in Hc. discriminate.
Defined.

(** X6.  Start-up touches the file system in one fixed way, whatever the
    files hold: it opens the two dictionary files, the English one first,
    then tests whether the icon file exists and, only if it does, hands it
    to [QIcon]; no country table is opened or cached before a lookup needs
    it. *)
Theorem startup_file_accesses fs :
  io (__init__ fs)
  = ([IOOpen "Database/CsOne_main.json"; IOOpen "Database/CsSK_main.json";
      IOExists "Database/hk4e_cn.ico"]
     ++ match fs "Database/hk4e_cn.ico" with
        | Absent => []
        | _ => [IOIcon "Database/hk4e_cn.ico"]
        end)%list
  /\ forall tr, cache_of tr (__init__ fs) = ∅.
Proof.
  split; [|intros tr; apply init_cache].
  rewrite init_io. reflexivity.
Qed.

(** X7.  Each track's index and start-up message depend on that track's
    dictionary file alone: a missing or broken dictionary of the other
    track changes neither. *)
Theorem tracks_load_independently fs1 fs2 tr :
  fs1 (main_path tr) = fs2 (main_path tr) ->
  index_of tr (__init__ fs1) = index_of tr (__init__ fs2)
  /\ output_of tr (__init__ fs1) = output_of tr (__init__ fs2).
Proof.
  intros H. rewrite !init_index, !init_output, H. split; reflexivity.
Qed.

Lemma tracks_load_independently_witness :
  sk_name_to_info (__init__ missing_one_fs) = sk_name_to_info (__init__ demo_fs).
Proof.
  apply (tracks_load_independently missing_one_fs demo_fs SK). reflexivity.
Defined.

(** ** The getter and [translate] *)

(** X8.  The cache getter never raises, and it touches neither the result
    fields nor the indexes nor the cache of the other track, whatever the
    file holds. *)
Theorem getter_never_raises_nor_touches_the_fields fs tr country self :
  (exists data,
     fst (get_track_country_data fs tr country self) = Return data)
  /\ forall tr',
       index_of tr' (snd (get_track_country_data fs tr country self))
       = index_of tr' self
       /\ output_of tr' (snd (get_track_country_data fs tr country self))
          = output_of tr' self
       /\ (tr' <> tr ->
           cache_of tr' (snd (get_track_country_data fs tr country self))
           = cache_of tr' self).
Proof.
  destruct (cache_of tr self !! country) as [d|] eqn:Hc.
  - rewrite (get_hit _ _ _ _ _ Hc). simpl. split; [eauto|].
    intros tr'. auto.
  - rewrite (get_miss _ _ _ _ Hc). cbv zeta.
    destruct (fs (country_path country)); simpl; (split; [eauto|]);
      intros tr'; autorewrite with frames; repeat split; try reflexivity.
    intros Hne. rewrite decide_False by assumption. reflexivity.
Qed.

(** The two blocks in a row, when both indexes exist. *)
Lemma translate_both fs text self :
  loaded self -> text <> "" ->
  translate fs text self
  = (Return tt,
     snd (translate_track fs SK text
            (snd (translate_track fs One text self)))).
Proof.
  intros Hl Hne. rewrite translate_nonempty by assumption.
  destruct (Hl One) as [idx1 H1]. destruct (Hl SK) as [idx2 H2].
  unfold bind.
  destruct (translate_track_run fs One text idx1 self H1) as [evs1 E1].
  rewrite E1. simpl.
  match goal with |- translate_track _ _ _ ?s = _ => set (s1 := s) end.
  assert (H2' : index_of SK s1 = Some idx2).
  { subst s1. autorewrite with frames. assumption. }
  destruct (translate_track_run fs SK text idx2 s1 H2') as [evs2 E2].
  rewrite E2. reflexivity.
Qed.

(** X9.  In a run on unchanged files in which both alias indexes exist:
    when the table of a name's country has an entry for the name's HID,
    [translate] on that name (a non-empty text found in the track's index)
    returns normally and shows the [name] field of that entry, or "Unknown"
    when the entry has no such field. *)
Theorem found_entry_shows_its_name fs self tr text idx info table entry :
  reachable fs self ->
  loaded self ->
  text <> "" ->
  index_of tr self = Some idx ->
  idx !! text = Some info ->
  fs (country_path (Country info)) = Content table ->
  dict_get table (HID info) = Some entry ->
  fst (translate fs text self) = Return tt
  /\ output_of tr (snd (translate fs text self))
     = default "Unknown" (entry !! "name").
Proof.
  intros Hreach Hloaded Hne Hidx Hin Hfile Hhid.
  destruct (translate_run fs text self tr idx Hloaded Hne Hidx)
    as (R & O & _).
  split; [exact R|].
  rewrite O. unfold result_text. rewrite Hin.
  rewrite (reachable_fetch fs self tr _ Hreach), Hfile.
  destruct table as [|e d]; [discriminate|].
  rewrite Hhid. reflexivity.
Qed.

Lemma found_entry_shows_its_name_witness :
  output_of One (snd (translate demo_fs "帝君" (__init__ demo_fs)))
  = "Zhongli".
Proof.
  apply (found_entry_shows_its_name demo_fs (__init__ demo_fs) One "帝君"
           (snd (build demo_dictionary ∅))
           {| Country := "Liyue"; HID := "h1" |} liyue_table
           (obj [("name", "Zhongli")])).
  - apply reach_init.
  - apply (init_loaded demo_fs demo_dictionary demo_dictionary);
      reflexivity.
  - discriminate.
  - apply init_index_of. reflexivity.
  - vm_compute. reflexivity.
  - vm_compute. reflexivity.
  - vm_compute. reflexivity.
Defined.

(** X10.  In a run on unchanged files in which both alias indexes exist,
    what [translate] shows for a non-empty text does not depend on what was
    translated before: any two states of the run give the same result
    field. *)
Theorem result_is_independent_of_history fs self1 self2 tr text :
  reachable fs self1 ->
  reachable fs self2 ->
  loaded self1 ->
  text <> "" ->
  output_of tr (snd (translate fs text self1))
  = output_of tr (snd (translate fs text self2)).
Proof.
  intros Hr1 Hr2 Hl1 Hne.
  assert (Hl2 : loaded self2).
  { intros tr'. rewrite (reachable_index fs self2 tr' Hr2).
    rewrite <- (reachable_index fs self1 tr' Hr1). apply Hl1. }
  destruct (Hl1 tr) as [idx Hidx1].
  assert (Hidx2 : index_of tr self2 = Some idx).
  { rewrite (reachable_index fs self2 tr Hr2).
    rewrite <- (reachable_index fs self1 tr Hr1). exact Hidx1. }
  destruct (translate_run fs text self1 tr idx Hl1 Hne Hidx1) as (_ & -> & _).
  destruct (translate_run fs text self2 tr idx Hl2 Hne Hidx2) as (_ & -> & _).
  unfold result_text. destruct (idx !! text) as [info|]; [|reflexivity].
  rewrite !(reachable_fetch fs _ tr _) by assumption. reflexivity.
Qed.

Lemma result_is_independent_of_history_witness :
  output_of One (snd (translate demo_fs "钟离" (__init__ demo_fs)))
  = output_of One
      (snd (translate demo_fs "钟离"
              (snd (translate demo_fs "胡桃" (__init__ demo_fs))))).
Proof.
  apply (result_is_independent_of_history demo_fs).
  - apply reach_init.
  - apply reach_translate. apply reach_init.
  - apply (init_loaded demo_fs demo_dictionary demo_dictionary);
      reflexivity.
  - discriminate.
Defined.

(** X11.  Both tracks read the table of a country from the same file: in a
    run on unchanged files, a text that the two dictionaries map to the same
    [Country] and [HID] gets the same string in the English and in the
    Korean field. *)
Theorem same_record_gives_same_fields fs self text idx1 idx2 info :
  reachable fs self ->
  text <> "" ->
  name_to_info self = Some idx1 ->
  sk_name_to_info self = Some idx2 ->
  idx1 !! text = Some info ->
  idx2 !! text = Some info ->
  output_edit_1 (snd (translate fs text self))
  = output_edit_2 (snd (translate fs text self)).
Proof.
  intros Hreach Hne H1 H2 Hin1 Hin2.
  assert (Hl : loaded self) by (intros []; simpl; eauto).
  destruct (translate_run fs text self One idx1 Hl Hne H1) as (_ & O1 & _).
  destruct (translate_run fs text self SK idx2 Hl Hne H2) as (_ & O2 & _).
  simpl in O1, O2. rewrite O1, O2. unfold result_text. rewrite Hin1, Hin2.
  change (country_data_cache self) with (cache_of One self).
  change (sk_country_data_cache self) with (cache_of SK self).
  rewrite !(reachable_fetch fs self _ _ Hreach). reflexivity.
Qed.

Lemma same_record_gives_same_fields_witness :
  output_edit_1 (snd (translate demo_fs "钟离" (__init__ demo_fs)))
  = output_edit_2 (snd (translate demo_fs "钟离" (__init__ demo_fs))).
Proof.
  apply (same_record_gives_same_fields demo_fs (__init__ demo_fs) "钟离"
           (snd (build demo_dictionary ∅)) (snd (build demo_dictionary ∅))
           {| Country := "Liyue"; HID := "h1" |}).
  - apply reach_init.
  - discriminate.
  - apply (init_index_of demo_fs One demo_dictionary). reflexivity.
  - apply (init_index_of demo_fs SK demo_dictionary). reflexivity.
  - vm_compute. reflexivity.
  - vm_compute. reflexivity.
Defined.

Lemma translate_track_unreadable fs tr text idx info msg self :
  index_of tr self = Some idx ->
  idx !! text = Some info ->
  cache_of tr self !! Country info = None ->
  fs (country_path (Country info)) = Unreadable msg ->
  translate_track fs tr text self
  = (Return tt,
     with_output tr no_data
       (with_io
          (((io self ++ [IOExists (country_path (Country info))])
            ++ [IOOpen (country_path (Country info))])
           ++ [IOPrint (country_error_line tr (Country info)
                          (LoadError msg))])
          self)).
Proof.
  intros Hidx Hin Hc Hfile.
  unfold translate_track, bind, get_index. rewrite Hidx, Hin.
  rewrite (get_miss _ _ _ _ Hc). cbv zeta. rewrite Hfile. reflexivity.
Qed.

Lemma translate_track_io_grows fs tr text self :
  exists evs : list IOEvent,
    io (snd (translate_track fs tr text self)) = (io self ++ evs)%list.
Proof.
  destruct (index_of tr self) as [idx|] eqn:Hidx.
  - destruct (translate_track_run fs tr text idx self Hidx) as [evs ->].
    exists evs. simpl. autorewrite with frames. reflexivity.
  - rewrite translate_track_unset by assumption. exists [].
    simpl. rewrite app_nil_r. reflexivity.
Qed.

(** X12.  In a run on unchanged files in which both alias indexes exist:
    when the table file of a name's country exists but cannot be read or
    parsed, [translate] on that name (a non-empty text found in the track's
    index) returns normally and shows the "translation data not found"
    sentinel; among the accesses this very call adds to the trace are, in a
    row, the test of the file, its opening and the print of the exception
    text to standard output, which is not shown in the field; and nothing
    is cached, so the next lookup reads the file again. *)
Theorem unreadable_table_is_reported_on_stdout
    fs self tr text idx info msg :
  reachable fs self ->
  loaded self ->
  text <> "" ->
  index_of tr self = Some idx ->
  idx !! text = Some info ->
  fs (country_path (Country info)) = Unreadable msg ->
  fst (translate fs text self) = Return tt
  /\ output_of tr (snd (translate fs text self)) = no_data
  /\ (exists before after : list IOEvent,
        io (snd (translate fs text self))
        = (io self ++ before
           ++ [IOExists (country_path (Country info));
               IOOpen (country_path (Country info));
               IOPrint (country_error_line tr (Country info)
                          (LoadError msg))]
           ++ after)%list)
  /\ cache_of tr (snd (translate fs text self)) !! Country info = None.
Proof.
  intros Hreach Hloaded Hne Hidx Hin Hfile.
  assert (Hmiss : forall s, reachable fs s ->
            cache_of tr s !! Country info = None).
  { intros s Hs. destruct (cache_of tr s !! Country info) as [d|] eqn:Hc;
      [|reflexivity].
    apply (reachable_consistent fs s Hs) in Hc. congruence. }
  destruct (translate_run fs text self tr idx Hloaded Hne Hidx)
    as (R & O & C).
  split; [exact R|]. split.
  { rewrite O. unfold result_text. rewrite Hin.
    rewrite (reachable_fetch fs self tr _ Hreach), Hfile. reflexivity. }
  split.
  - rewrite translate_both by assumption. cbn [snd].
    destruct tr.
    + destruct (translate_track_io_grows fs SK text
                  (snd (translate_track fs One text self))) as [evs ->].
      rewrite (translate_track_unreadable fs One text idx info msg self)
        by auto.
      exists [], evs. cbn [snd]. autorewrite with frames.
      rewrite <- !app_assoc. reflexivity.
    + destruct (translate_track_io_grows fs One text self) as [evs E].
      rewrite (translate_track_unreadable fs SK text idx info msg).
      * exists evs, []. cbn [snd]. autorewrite with frames. rewrite E.
        rewrite <- !app_assoc. reflexivity.
      * rewrite translate_track_index. assumption.
      * assumption.
      * destruct (translate_track_other fs One text self SK) as [-> _];
          [discriminate|]. auto.
      * assumption.
  - rewrite <- (Hmiss (snd (translate fs text self))).
    + reflexivity.
    + apply reach_translate. assumption.
Qed.

Lemma unreadable_table_is_reported_on_stdout_witness :
  output_of One
    (snd (translate garbled_table_fs "温迪" (__init__ garbled_table_fs)))
  = no_data.
Proof.
  apply (unreadable_table_is_reported_on_stdout garbled_table_fs
           (__init__ garbled_table_fs) One "温迪"
           (snd (build demo_dictionary ∅))
           {| Country := "Mondstadt"; HID := "h3" |}
           "Expecting value: line 1 column 1 (char 0)").
  - apply reach_init.
  - apply (init_loaded garbled_table_fs demo_dictionary demo_dictionary);
      reflexivity.
  - discriminate.
  - apply (init_index_of garbled_table_fs One demo_dictionary). reflexivity.
  - vm_compute. reflexivity.
  - reflexivity.
Defined.

Lemma fetch_after fs idx cache text country :
  fetch fs (result_cache fs idx cache text) country = fetch fs cache country.
Proof.
  unfold fetch, result_cache.
  destruct (idx !! text) as [info|]; [|reflexivity].
  destruct (cache !! Country info) eqn:Hc; [reflexivity|].
  destruct (fs (country_path (Country info))) as [|msg|data] eqn:Hf;
    try reflexivity.
  destruct (decide (Country info = country)) as [<-|Hne].
  - rewrite lookup_insert_eq, Hc, Hf. reflexivity.
  - rewrite lookup_insert_ne by assumption. reflexivity.
Qed.

Lemma result_cache_twice fs idx cache text :
  result_cache fs idx (result_cache fs idx cache text) text
  = result_cache fs idx cache text.
Proof.
  unfold result_cache.
  destruct (idx !! text) as [info|]; [|reflexivity].
  destruct (cache !! Country info) eqn:Hc; [rewrite Hc; reflexivity|].
  destruct (fs (country_path (Country info))) as [|msg|data] eqn:Hf;
    rewrite ?Hc, ?Hf; try reflexivity.
  rewrite lookup_insert_eq. reflexivity.
Qed.

(** X13.  Translating the same text twice in a row on the same files
    changes nothing the second time in the result fields and the caches. *)
Theorem translate_twice_is_translate_once fs text self tr :
  loaded self ->
  text <> "" ->
  let once := snd (translate fs text self) in
  let twice := snd (translate fs text once) in
  fst (translate fs text once) = Return tt
  /\ output_of tr twice = output_of tr once
  /\ cache_of tr twice = cache_of tr once.
Proof.
  intros Hl Hne once twice.
  assert (Hl1 : loaded once).
  { intros tr'. unfold once. rewrite translate_index. apply Hl. }
  destruct (Hl tr) as [idx Hidx].
  assert (Hidx1 : index_of tr once = Some idx).
  { unfold once. rewrite translate_index. exact Hidx. }
  destruct (translate_run fs text self tr idx Hl Hne Hidx) as (_ & O & C).
  destruct (translate_run fs text once tr idx Hl1 Hne Hidx1)
    as (R1 & O1 & C1).
  fold once in O, C. fold twice in O1, C1.
  split; [exact R1|]. rewrite O1, C1, O, C. split.
  - unfold result_text. destruct (idx !! text) as [info|]; [|reflexivity].
    rewrite fetch_after. reflexivity.
  - apply result_cache_twice.
Qed.

Lemma translate_twice_is_translate_once_witness :
  output_of One
    (snd (translate demo_fs "钟离"
            (snd (translate demo_fs "钟离" (__init__ demo_fs)))))
  = output_of One (snd (translate demo_fs "钟离" (__init__ demo_fs))).
Proof.
  apply (translate_twice_is_translate_once demo_fs "钟离" (__init__ demo_fs)
           One).
  - apply (init_loaded demo_fs demo_dictionary demo_dictionary);
      reflexivity.
  - discriminate.
Defined.

(** X14.  When only the Korean index is missing, [translate] on a non-empty
    text runs the English block, which writes the English field, and then
    raises [AttributeError] for [sk_name_to_info]; the Korean field and cache
    stay as they were. *)
Theorem missing_korean_index_raises_after_english_block fs text self idx :
  name_to_info self = Some idx ->
  sk_name_to_info self = None ->
  text <> "" ->
  translate fs text self
  = (Raise (AttributeError "sk_name_to_info"),
     snd (translate_track fs One text self))
  /\ output_edit_2 (snd (translate fs text self)) = output_edit_2 self
  /\ sk_country_data_cache (snd (translate fs text self))
     = sk_country_data_cache self.
Proof.
  intros H1 H2 Hne. rewrite translate_nonempty by assumption. unfold bind.
  destruct (translate_track_run fs One text idx self H1) as [evs E].
  pose proof (translate_track_index fs One text self SK) as Hsk.
  pose proof (translate_track_other fs One text self SK) as Hoth.
  rewrite E in *. cbn [snd] in *.
  set (s1 := with_output One _ _) in *.
  rewrite (translate_track_unset fs SK text s1) by (rewrite Hsk; exact H2).
  destruct Hoth as [Hc Ho]; [discriminate|].
  cbn [snd]. repeat split; assumption.
Qed.

Lemma missing_korean_index_raises_after_english_block_witness :
  let fs := fun path =>
    if decide (path = "Database/CsSK_main.json") then Absent
    else demo_fs path in
  fst (translate fs "派蒙" (__init__ fs))
  = Raise (AttributeError "sk_name_to_info").
Proof.
  intros fs.
  destruct (missing_korean_index_raises_after_english_block fs "派蒙"
              (__init__ fs) (snd (build demo_dictionary ∅))) as (-> & _).
  - apply (init_index_of fs One demo_dictionary). reflexivity.
  - change (index_of SK (__init__ fs) = None). rewrite init_index.
    reflexivity.
  - discriminate.
  - reflexivity.
Defined.

(** ** Input polling and the copy buttons *)

(** X15.  Polling is debounced: after a tick, the next tick with the input
    unchanged does nothing at all, on whatever files, and this also holds
    when [translate] raised during the first tick, because the text is
    recorded before [translate] is called. *)
Theorem second_tick_does_nothing fs fs' w :
  check_input fs' (snd (check_input fs w))
  = (Return tt, snd (check_input fs w)).
Proof.
  assert (H : input_line (snd (check_input fs w))
              = last_input (snd (check_input fs w))).
  { unfold check_input.
    destruct (decide (input_line w <> last_input w)) as [Hne|Heq].
    - destruct (translate fs (input_line w)
                  (core (with_last_input (input_line w) w))) as [o self].
      reflexivity.
    - simpl. destruct (decide (input_line w = last_input w)); tauto. }
  unfold check_input at 1. rewrite decide_False; [reflexivity|]. tauto.
Qed.

(** X16.  When the user empties the input after some text, the next tick
    returns normally with both result fields empty, without any file access
    and without touching indexes or caches, also when an index is missing;
    both copy buttons then do nothing. *)
Theorem emptied_input_clears_the_fields fs w :
  input_line w = "" ->
  last_input w <> "" ->
  let w' := snd (check_input fs w) in
  fst (check_input fs w) = Return tt
  /\ output_edit_1 (core w') = "" /\ output_edit_2 (core w') = ""
  /\ io (core w') = io (core w)
  /\ (forall tr, index_of tr (core w') = index_of tr (core w)
                 /\ cache_of tr (core w') = cache_of tr (core w))
  /\ forall button_id, copy_to_clipboard button_id w' = w'.
Proof.
  intros Hin Hlast w'. subst w'. unfold check_input. rewrite Hin.
  rewrite decide_True by congruence. simpl.
  repeat split; try (destruct tr; reflexivity).
  intros button_id. unfold copy_to_clipboard.
  destruct (decide (button_id = 1%Z)); reflexivity.
Qed.

Lemma emptied_input_clears_the_fields_witness :
  let w := run_events [Typed "钟离"; Tick demo_fs; Typed ""]
             (show_window demo_fs "") in
  output_edit_1 (core (snd (check_input demo_fs w))) = "".
Proof.
  intros w.
  apply (emptied_input_clears_the_fields demo_fs w).
  - vm_compute. reflexivity.
  - vm_compute. discriminate.
Defined.

(** X17.  The sentinel is copied like a translation: after the tick that
    translates a text unknown to a track, a click on that track's button
    (id 1 for English, any other id for Korean) puts "无此翻译结果" on the
    clipboard and marks the button. *)
Theorem unknown_text_copies_the_sentinel fs w tr idx button_id :
  loaded (core w) ->
  input_line w <> "" ->
  input_line w <> last_input w ->
  index_of tr (core w) = Some idx ->
  idx !! input_line w = None ->
  (button_id = 1%Z <-> tr = One) ->
  let w' := copy_to_clipboard button_id (snd (check_input fs w)) in
  clipboard w' = "无此翻译结果" /\ button_of tr w' = "✅".
Proof.
  intros Hl Hne Hchg Hidx Hout Hid w'. subst w'.
  destruct (translate_run fs (input_line w) (core w) tr idx Hl Hne Hidx)
    as (_ & Ho & _).
  unfold result_text in Ho. rewrite Hout in Ho.
  unfold check_input. rewrite decide_True by assumption.
  change (core (with_last_input (input_line w) w)) with (core w).
  destruct (translate fs (input_line w) (core w)) as [o self] eqn:E.
  simpl in Ho. cbn [snd]. unfold copy_to_clipboard.
  assert (Htr : (if decide (button_id = 1%Z) then One else SK) = tr).
  { destruct (decide (button_id = 1%Z)) as [H|H], tr; try reflexivity.
    - apply Hid in H. discriminate.
    - exfalso. apply H. apply Hid. reflexivity. }
  rewrite Htr. cbn [core with_core]. rewrite Ho.
  rewrite decide_False by discriminate.
  destruct tr; split; reflexivity.
Qed.

Lemma unknown_text_copies_the_sentinel_witness :
  clipboard
    (copy_to_clipboard 2
       (snd (check_input demo_fs
               (with_input "派蒙" (show_window demo_fs "")))))
  = "无此翻译结果".
Proof.
  apply (unknown_text_copies_the_sentinel demo_fs
           (with_input "派蒙" (show_window demo_fs "")) SK
           (snd (build demo_dictionary ∅)) 2).
  - apply (init_loaded demo_fs demo_dictionary demo_dictionary);
      reflexivity.
  - discriminate.
  - discriminate.
  - apply (init_index_of demo_fs SK demo_dictionary). reflexivity.
  - vm_compute. reflexivity.
  - split; discriminate.
Defined.

Lemma labels_differ : done_label <> copy_label.
Proof. discriminate. Qed.

Lemma handle_keeps_labels w ev : labels_ok w -> labels_ok (handle w ev).
Proof.
  unfold labels_ok. intros Inv tr.
  destruct ev as [text|fs|button_id|]; simpl.
  - apply Inv.
  - unfold check_input.
    destruct (decide (input_line w <> last_input w)); [|apply Inv].
    destruct (translate fs (input_line w)
                (core (with_last_input (input_line w) w))) as [o self].
    apply Inv.
  - unfold copy_to_clipboard.
    set (tr0 := if decide (button_id = 1%Z) then One else SK).
    destruct (decide (output_of tr0 (core w) = "")); [apply Inv|].
    destruct (Inv tr) as [Hl Hp].
    destruct tr, tr0; simpl in *; split; auto;
      intros H; apply elem_of_app; try (right; left); left; auto.
  - unfold single_shot_timeout.
    destruct (single_shots w) as [|h rest] eqn:Hs;
      [simpl; rewrite ?Hs; apply Inv|].
    destruct (Inv tr) as [Hl Hp].
    destruct tr, h; simpl in *; split; auto; intros H;
      try (exfalso; apply labels_differ; congruence);
      apply Hp in H; apply elem_of_cons in H as [H|H];
      try discriminate; exact H.
Qed.

Lemma run_events_keeps_labels evs : forall w,
  labels_ok w -> labels_ok (run_events evs w).
Proof.
  induction evs as [|ev evs IH]; intros w Hw; [exact Hw|].
  apply (IH (handle w ev)). apply handle_keeps_labels. exact Hw.
Qed.

(** X18.  Through any sequence of typing, ticks, clicks and single-shot
    time-outs after start-up, each copy button shows either its label or the
    check mark, and it shows the check mark only while a single shot that
    will restore the label is pending; with none pending both buttons show
    their label. *)
Theorem check_mark_always_has_a_pending_reset evs fs clip tr :
  let w := run_events evs (show_window fs clip) in
  (button_of tr w = copy_label \/ button_of tr w = done_label)
  /\ (button_of tr w = done_label -> tr ∈ single_shots w)
  /\ (single_shots w = [] -> button_of tr w = copy_label).
Proof.
  intros w.
  assert (Inv : labels_ok w).
  { apply run_events_keeps_labels. intros []; simpl; split; auto;
      intros H; symmetry in H; exfalso; exact (labels_differ H). }
  destruct (Inv tr) as [Hl Hp]. repeat split; auto.
  intros Hs. destruct Hl as [Hl|Hl]; [exact Hl|].
  apply Hp in Hl. rewrite Hs in Hl. apply elem_of_nil in Hl. contradiction.
Qed.

(** ** The single-instance guard *)

(** X19.  [is_already_running] answers [True] in exactly one case: on
    Windows, when [CreateMutexW] returned a handle, [GetLastError] returned
    [ERROR_ALREADY_EXISTS] and [CloseHandle] returned.  Every other outcome,
    also a [NULL] handle or an exception in any of the three calls, answers
    [False].  After a [True] the checker holds no handle and has made these
    three calls and no other. *)
Theorem reports_running_exactly_when_the_mutex_exists
    {S} (os : OS S) (self : SingleInstanceChecker S) :
  (fst (is_already_running os self) = true
   <-> platform_system os = "Windows"
       /\ exists h st1 st2 b st3,
            CreateMutexW os (mutex_name self) (os_state self)
            = (Value (Some h), st1)
            /\ GetLastError os st1 = (Value ERROR_ALREADY_EXISTS, st2)
            /\ CloseHandle os h st2 = (Value b, st3))
  /\ (fst (is_already_running os self) = true ->
      mutex_handle (snd (is_already_running os self)) = None
      /\ exists h,
           os_calls (snd (is_already_running os self))
           = (os_calls self
              ++ [CallCreateMutexW (mutex_name self); CallGetLastError;
                  CallCloseHandle h])%list).
Proof.
  unfold is_already_running.
  destruct (decide (platform_system os <> "Windows")) as [Hp|Hp].
  { simpl. split; [split|]; try discriminate. intros [? _]. contradiction. }
  assert (Hw : platform_system os = "Windows").
  { destruct (decide (platform_system os = "Windows")); tauto. }
  destruct (CreateMutexW os (mutex_name self) (os_state self))
    as [[[h|]|msg] st1] eqn:Hc; simpl;
    try (split; [split|]; try discriminate;
         intros (_ & ? & ? & ? & ? & ? & ? & _); discriminate).
  destruct (GetLastError os st1) as [[err|msg] st2] eqn:Hg; simpl;
    try (split; [split|]; try discriminate;
         intros (_ & ? & ? & ? & ? & ? & H1 & H2 & _);
         injection H1 as <- <-; rewrite Hg in H2; discriminate).
  destruct (decide (err = ERROR_ALREADY_EXISTS)) as [->|Herr]; simpl.
  - destruct (CloseHandle os h st2) as [[b|msg] st3] eqn:Hx; simpl.
    + split; [split|].
      * intros _. split; [exact Hw|]. exists h, st1, st2, b, st3. auto.
      * reflexivity.
      * intros _. split; [reflexivity|]. exists h.
        rewrite <- !app_assoc. reflexivity.
    + split; [split|]; try discriminate.
      intros (_ & ? & ? & ? & ? & ? & H1 & H2 & H3).
      injection H1 as <- <-. rewrite Hg in H2. injection H2 as <-.
      rewrite Hx in H3. discriminate.
  - split; [split|]; try discriminate.
    intros (_ & ? & ? & ? & ? & ? & H1 & H2 & _).
    injection H1 as <- <-. rewrite Hg in H2. injection H2 as ? ?.
    congruence.
Qed.

(** Without a handle [release] does nothing. *)
Lemma release_without_handle {S} (os : OS S) (self : SingleInstanceChecker S) :
  mutex_handle self = None -> release os self = self.
Proof. intros H. unfold release. rewrite H. reflexivity. Qed.

(** On Windows, with a [CloseHandle] that returns, [release] leaves no
    handle, and it closes the one it held. *)
Lemma release_on_windows {S} (os : OS S) (self : SingleInstanceChecker S) :
  platform_system os = "Windows" ->
  (forall h st, exists b st', CloseHandle os h st = (Value b, st')) ->
  mutex_handle (release os self) = None
  /\ forall h,
       mutex_handle self = Some h ->
       os_calls (release os self)
       = (os_calls self ++ [CallCloseHandle h])%list.
Proof.
  intros Hw Hq. unfold release.
  destruct (mutex_handle self) as [h|] eqn:Hh.
  - rewrite decide_True by assumption.
    destruct (Hq h (os_state self)) as (b & st' & ->). simpl.
    split; [reflexivity|]. intros h' [= <-]. reflexivity.
  - split; [exact Hh|]. intros h' H. discriminate.
Qed.

(** X20.  When [CloseHandle] returns, [release] drops the handle, so a
    second [release] (the one of [main] after the one of [closeEvent])
    makes no system call and changes nothing; off Windows [release] never
    calls the system. *)
Theorem second_release_does_nothing
    {S} (os : OS S) (self : SingleInstanceChecker S) :
  (forall h st, exists b st', CloseHandle os h st = (Value b, st')) ->
  release os (release os self) = release os self
  /\ (platform_system os = "Windows" ->
      mutex_handle (release os self) = None)
  /\ (platform_system os <> "Windows" -> release os self = self).
Proof.
  intros Hq.
  assert (Hcases :
    (platform_system os = "Windows"
     /\ mutex_handle (release os self) = None)
    \/ (release os self = self
        /\ (platform_system os = "Windows" -> mutex_handle self = None))).
  { unfold release. destruct (mutex_handle self) as [h|] eqn:Hh.
    - destruct (decide (platform_system os = "Windows")) as [Hw|Hw].
      + destruct (Hq h (os_state self)) as (b & st' & ->). left. auto.
      + right. split; [reflexivity|]. intros H. contradiction.
    - right. auto. }
  destruct Hcases as [[Hw Hn] | [He Hn]].
  - split; [apply release_without_handle; exact Hn|].
    split; [intros _; exact Hn|]. intros H. contradiction.
  - rewrite !He. split; [reflexivity|]. split; [exact Hn|]. auto.
Qed.

Lemma second_release_does_nothing_witness :
  let c := snd (is_already_running (sample_os "Windows")
                  (new_checker "HasH:f779" ([], 0%N))) in
  release (sample_os "Windows") (release (sample_os "Windows") c)
  = release (sample_os "Windows") c.
Proof.
  intros c.
  apply (second_release_does_nothing (sample_os "Windows") c).
  intros h st. exists true, st. reflexivity.
Defined.

(** X21.  For the first instance on Windows (the mutex did not exist), with
    system calls that return: after [is_already_running] answered [False]
    the checker holds the handle, and [release] closes it once; the calls
    made are [CreateMutexW], [GetLastError] and one [CloseHandle] on that
    handle, and any further [release] adds none. *)
Theorem first_instance_closes_its_handle_once
    {S} (os : OS S) name st h st1 err st2 :
  platform_system os = "Windows" ->
  CreateMutexW os name st = (Value (Some h), st1) ->
  GetLastError os st1 = (Value err, st2) ->
  err <> ERROR_ALREADY_EXISTS ->
  (forall h st, exists b st', CloseHandle os h st = (Value b, st')) ->
  let started := is_already_running os (new_checker name st) in
  let released := release os (snd started) in
  fst started = false
  /\ mutex_handle (snd started) = Some h
  /\ mutex_handle released = None
  /\ os_calls released
     = [CallCreateMutexW name; CallGetLastError; CallCloseHandle h]
  /\ release os released = released.
Proof.
  intros Hw Hc Hg Herr Hq started released.
  assert (Hs : started
               = (false,
                  called CallGetLastError st2 (Some h)
                    (called (CallCreateMutexW name) st1 (Some h)
                       (new_checker name st)))).
  { subst started. unfold is_already_running.
    rewrite decide_False by (intros H; apply H; exact Hw).
    simpl. rewrite Hc, Hg. rewrite decide_False by assumption.
    reflexivity. }
  destruct (Hq h st2) as (b & st' & Hx).
  assert (Hr : released
               = called (CallCloseHandle h) st' None (snd started)).
  { subst released. rewrite Hs. unfold release. simpl.
    rewrite decide_True by assumption. rewrite Hx. reflexivity. }
  rewrite Hr, Hs. simpl.
  repeat split; try reflexivity.
Qed.

Lemma first_instance_closes_its_handle_once_witness :
  os_calls
    (release (sample_os "Windows")
       (snd (is_already_running (sample_os "Windows")
               (new_checker "HasH:f779" ([], 0%N)))))
  = [CallCreateMutexW "HasH:f779"; CallGetLastError; CallCloseHandle 7].
Proof.
  apply (first_instance_closes_its_handle_once (sample_os "Windows")
           "HasH:f779" ([], 0%N) 7%positive (["HasH:f779"], 0%N) 0%N
           (["HasH:f779"], 0%N)).
  - reflexivity.
  - reflexivity.
  - reflexivity.
  - discriminate.
  - intros h st. exists true, st. reflexivity.
Defined.

Lemma close_events_closing {S} (os : OS S) n : forall self : Closing S,
  is_closing self = true ->
  fst (close_events os n self) = replicate n Accepted
  /\ fade_out_starts (snd (close_events os n self)) = fade_out_starts self
  /\ is_closing (snd (close_events os n self)) = true.
Proof.
  induction n as [|n IH]; intros self H; [simpl; auto|].
  simpl. unfold closeEvent. rewrite H. simpl.
  match goal with
  | |- context [close_events os n ?s] =>
      destruct (IH s) as (I1 & I2 & I3); [reflexivity|];
      destruct (close_events os n s) as [ds s2]
  end.
  simpl in *. subst ds. auto.
Qed.

(** X22.  Closing takes two close events: the first one is ignored and
    starts the fade-out, every later one is accepted, and the fade-out is
    started exactly once however many close events arrive. *)
Theorem first_close_fades_later_ones_accept
    {S} (os : OS S) n (self : Closing S) :
  is_closing self = false ->
  fst (close_events os (Datatypes.S n) self) = Ignored :: replicate n Accepted
  /\ fade_out_starts (snd (close_events os (Datatypes.S n) self))
     = fade_out_starts self + 1
  /\ is_closing (snd (close_events os (Datatypes.S n) self)) = true.
Proof.
  intros H. simpl. unfold closeEvent at 1 2 3. rewrite H. simpl.
  match goal with
  | |- context [close_events os n ?s] =>
      destruct (close_events_closing os n s) as (I1 & I2 & I3);
        [reflexivity|];
      destruct (close_events os n s) as [ds s2]
  end.
  simpl in *. subst ds. auto.
Qed.

Lemma first_close_fades_later_ones_accept_witness :
  fst (close_events (sample_os "Windows") 2
         {| is_closing := false; fade_out_starts := 0;
            instance_checker := None |})
  = [Ignored; Accepted].
Proof.
  apply (first_close_fades_later_ones_accept (sample_os "Windows") 1
           {| is_closing := false; fade_out_starts := 0;
              instance_checker := None |}).
  reflexivity.
Defined.


(** X23.  An accepted close event releases the mutex of the checker that
    [main] attached to the window: on Windows, with a [CloseHandle] that
    returns, the checker holds no handle afterwards and the handle it held
    was closed by one call, so the [release] that [main] runs after the
    event loop changes nothing. *)
Theorem accepted_close_releases_the_mutex
    {S} (os : OS S) (self : Closing S) (c : SingleInstanceChecker S) :
  is_closing self = true ->
  instance_checker self = Some c ->
  platform_system os = "Windows" ->
  (forall h st, exists b st', CloseHandle os h st = (Value b, st')) ->
  fst (closeEvent os self) = Accepted
  /\ exists c',
       instance_checker (snd (closeEvent os self)) = Some c'
       /\ mutex_handle c' = None
       /\ release os c' = c'
       /\ forall h,
            mutex_handle c = Some h ->
            os_calls c' = (os_calls c ++ [CallCloseHandle h])%list.
Proof.
  intros Hcl Hc Hw Hq. unfold closeEvent. rewrite Hcl, Hc. simpl.
  split; [reflexivity|]. exists (release os c).
  destruct (release_on_windows os c Hw Hq) as [Hn Hcalls].
  split; [reflexivity|]. split; [exact Hn|].
  split; [apply release_without_handle; exact Hn|exact Hcalls].
Qed.

Lemma accepted_close_releases_the_mutex_witness :
  fst (closeEvent (sample_os "Windows")
         {| is_closing := true; fade_out_starts := 1;
            instance_checker :=
              Some (snd (is_already_running (sample_os "Windows")
                           (new_checker "HasH:f779" ([], 0%N)))) |})
  = Accepted.
Proof.
  apply (accepted_close_releases_the_mutex (sample_os "Windows")
           {| is_closing := true; fade_out_starts := 1;
              instance_checker :=
                Some (snd (is_already_running (sample_os "Windows")
                             (new_checker "HasH:f779" ([], 0%N)))) |}
           (snd (is_already_running (sample_os "Windows")
                   (new_checker "HasH:f779" ([], 0%N))))).
  - reflexivity.
  - reflexivity.
  - reflexivity.
  - intros h st. exists true, st. reflexivity.
Defined.
